(** * Threaded word-frequency counter: segment planning, counting, merging

    A shallow embedding of [wordfreq_threaded.py].  Python integers are
    modelled by [Z], the bytes of the input file by [list byte], a
    [Counter] by a finite map from words to integer counts, and the
    exceptions the program can raise by an explicit outcome type. *)

From Stdlib Require Import ZArith Lia Init.Byte OrderedTypeEx.
From stdpp Require Import gmap strings list fin_maps list_numbers sorting.

Local Open Scope Z_scope.

(** ** Outcomes of Python computations *)

Inductive exn := ValueError | OSError.

(** [OutOfFuel] is not a Python outcome: it marks a [while] loop of the model
    that was cut off by its iteration bound.  [compute_segments_total] and
    [compute_segments_fuel_enough] show that the bound used by
    [compute_segments] is never reached. *)
Inductive outcome (A : Type) :=
  | Ret (a : A)
  | Raise (e : exn)
  | OutOfFuel.
Arguments Ret {A} a.
Arguments Raise {A} e.
Arguments OutOfFuel {A}.

Global Instance outcome_bind : MBind outcome := λ A B k c,
  match c with
  | Ret a => k a
  | Raise e => Raise e
  | OutOfFuel => OutOfFuel
  end.

(** A [for] loop that appends one computed item per iteration. *)
Fixpoint for_each {A B} (body : A → outcome B) (xs : list A) : outcome (list B) :=
  match xs with
  | [] => Ret []
  | x :: xs' =>
      y ← body x;
      ys ← for_each body xs';
      Ret (y :: ys)
  end.

(** ** The input file *)

Definition byte_val (b : byte) : Z := Z.of_N (Byte.to_N b).

(** [f.seek(pos)] on a binary file: a negative offset is rejected by the
    operating system (EINVAL), any other offset is accepted, also past the
    end of the file. *)
Definition seek (pos : Z) : outcome Z :=
  if pos <? 0 then Raise OSError else Ret pos.

(** [f.read(k)] at position [pos]: at most [k] bytes, fewer at the end of
    the file, all the remaining bytes when [k] is negative. *)
Definition read (f : list byte) (pos k : Z) : list byte :=
  if k <? 0 then drop (Z.to_nat pos) f
  else take (Z.to_nat k) (drop (Z.to_nat pos) f).

(** [f.seek(pos); f.read(1)] *)
Definition seek_read1 (f : list byte) (pos : Z) : outcome (list byte) :=
  p ← seek pos; Ret (read f p 1).

(** ** is_word_char *)

Definition is_word_char (b : Z) : bool :=
  ((65 <=? b) && (b <=? 90)) || ((97 <=? b) && (b <=? 122))
  || ((48 <=? b) && (b <=? 57)) || (b =? 39).

(** The loop condition [prev and is_word_char(prev[0])]. *)
Definition word_char_read (prev : list byte) : bool :=
  match prev with
  | [] => false
  | b :: _ => is_word_char (byte_val b)
  end.

(** ** compute_segments *)

(** The loop that moves [start] forward; [prev] is the byte read at
    [start - 1]. *)
Fixpoint adjust_start (fuel : nat) (f : list byte) (start : Z) (prev : list byte)
  : outcome Z :=
  if word_char_read prev then
    match fuel with
    | O => OutOfFuel
    | S fuel' =>
        let start := start + 1 in
        prev ← seek_read1 f (start - 1);
        adjust_start fuel' f start prev
    end
  else Ret start.

(** The loop that moves [end] forward; [cur] is the byte read at [end - 1]. *)
Fixpoint adjust_end (fuel : nat) (f : list byte) (size end_ : Z) (cur : list byte)
  : outcome Z :=
  if word_char_read cur then
    match fuel with
    | O => OutOfFuel
    | S fuel' =>
        let end_ := end_ + 1 in
        if size <=? end_ then Ret size
        else
          cur ← seek_read1 f (end_ - 1);
          adjust_end fuel' f size end_ cur
    end
  else Ret end_.

(** The body of the loop [for i in range(n)]. *)
Definition segment_bounds (fuel : nat) (f : list byte) (size n approx i : Z)
  : outcome (Z * Z) :=
  let start := i * approx in
  let end_ := if i =? n - 1 then size else (i + 1) * approx in
  start ← (if 0 <? start then
             prev ← seek_read1 f (start - 1);
             adjust_start fuel f start prev
           else Ret start);
  end_ ← (if end_ <? size then
            cur ← seek_read1 f (end_ - 1);
            adjust_end fuel f size end_ cur
          else Ret end_);
  Ret (start, end_).

(** One iteration of the merge loop over the state [(merged, last_end)]. *)
Definition merge_step (st : list (Z * Z) * Z) (seg : Z * Z) : list (Z * Z) * Z :=
  let '(merged, last_end) := st in
  let '(s, e) := seg in
  match merged with
  | [] => ([(s, e)], e)
  | _ :: _ =>
      if e - s =? 0 then
        (alter (λ r, (r.1, Z.max r.2 e)) (length merged - 1)%nat merged, last_end)
      else
        let s := Z.max s last_end in
        let s := if e <? s then e else s in
        (merged ++ [(s, e)], e)
  end.

Definition merge_segments (segments : list (Z * Z)) : list (Z * Z) :=
  (foldl merge_step ([], -1) segments).1.

Definition compute_segments_fuel (fuel : nat) (f : list byte) (n : Z)
  : outcome (list (Z * Z)) :=
  let size := Z.of_nat (length f) in
  if n <=? 0 then Raise ValueError
  else if size =? 0 then Ret [(0, 0)]
  else
    let approx := size `div` n in
    segments ← for_each (segment_bounds fuel f size n approx) (seqZ 0 n);
    Ret (merge_segments segments).

(** Each loop advances its offset by one per iteration and stops at the end
    of the file at the latest, so [length f + 1] iterations are enough. *)
Definition compute_segments (f : list byte) (n : Z) : outcome (list (Z * Z)) :=
  compute_segments_fuel (S (length f)) f n.

(** ** Text: decoding, lower-casing, the word pattern

    A [str] is a sequence of code points.  *)

Definition is_cont (b : Z) : bool := (0x80 <=? b) && (b <=? 0xBF).

Definition cont_bits (b : Z) : Z := Z.land b 0x3F.

(** [bytes.decode("utf-8", errors="ignore")] on byte values.  A well-formed
    sequence of one to four bytes yields its code point.  Anything else is an
    error, which the [ignore] handler skips: the decoder reports the longest
    ill-formed prefix, which is a lead byte followed by continuation bytes
    only, and continuation bytes are themselves ill-formed as lead bytes, so
    skipping the lead byte alone and decoding on yields the same text. *)
Fixpoint utf8_decode_ignore (bs : list Z) : list Z :=
  match bs with
  | [] => []
  | b0 :: r0 =>
      if b0 <? 0x80 then b0 :: utf8_decode_ignore r0
      else
        match r0 with
        | [] => []
        | b1 :: r1 =>
            if (0xC2 <=? b0) && (b0 <=? 0xDF) then
              if is_cont b1
              then (Z.shiftl (Z.land b0 0x1F) 6 + cont_bits b1) :: utf8_decode_ignore r1
              else utf8_decode_ignore r0
            else if (0xE0 <=? b0) && (b0 <=? 0xEF) then
              let lo := if b0 =? 0xE0 then 0xA0 else 0x80 in
              let hi := if b0 =? 0xED then 0x9F else 0xBF in
              match r1 with
              | b2 :: r2 =>
                  if (lo <=? b1) && (b1 <=? hi) && is_cont b2
                  then (Z.shiftl (Z.land b0 0x0F) 12 + Z.shiftl (cont_bits b1) 6
                        + cont_bits b2) :: utf8_decode_ignore r2
                  else utf8_decode_ignore r0
              | [] => utf8_decode_ignore r0
              end
            else if (0xF0 <=? b0) && (b0 <=? 0xF4) then
              let lo := if b0 =? 0xF0 then 0x90 else 0x80 in
              let hi := if b0 =? 0xF4 then 0x8F else 0xBF in
              match r1 with
              | b2 :: b3 :: r3 =>
                  if (lo <=? b1) && (b1 <=? hi) && is_cont b2 && is_cont b3
                  then (Z.shiftl (Z.land b0 0x07) 18 + Z.shiftl (cont_bits b1) 12
                        + Z.shiftl (cont_bits b2) 6 + cont_bits b3)
                       :: utf8_decode_ignore r3
                  else utf8_decode_ignore r0
              | _ => utf8_decode_ignore r0
              end
            else utf8_decode_ignore r0
        end
  end.

(** [str.lower()] on one code point.  The ASCII capitals map to their small
    letters, and exactly two code points outside ASCII have a lower-case
    form that contains an ASCII letter: U+0130 (to [i] and U+0307) and U+212A,
    the Kelvin sign (to [k]).  Every other code point outside ASCII is mapped
    to text outside ASCII; it is kept as it is here, since [WORD_RE] matches
    ASCII code points only and so cannot tell such code points apart. *)
Definition lower_char (c : Z) : list Z :=
  if (65 <=? c) && (c <=? 90) then [c + 32]
  else if c =? 0x130 then [0x69; 0x307]
  else if c =? 0x212A then [0x6B]
  else [c].

Definition lower (text : list Z) : list Z := text ≫= lower_char.

(** The character class [[A-Za-z0-9']] of [WORD_RE]. *)
Definition word_re_class (c : Z) : bool :=
  ((65 <=? c) && (c <=? 90)) || ((97 <=? c) && (c <=? 122))
  || ((48 <=? c) && (c <=? 57)) || (c =? 39).

Definition flush (cur : list Z) : list (list Z) :=
  match cur with [] => [] | _ :: _ => [cur] end.

(** [WORD_RE.findall(text)]: the maximal runs of code points of the class,
    left to right; [cur] is the run being read. *)
Fixpoint findall_from (cur : list Z) (text : list Z) : list (list Z) :=
  match text with
  | [] => flush cur
  | c :: text' =>
      if word_re_class c then findall_from (cur ++ [c]) text'
      else flush cur ++ findall_from [] text'
  end.

Definition findall (text : list Z) : list (list Z) := findall_from [] text.

(** A match of [WORD_RE] consists of ASCII code points, so it is a [string]
    of one character per code point. *)
Definition str_of (cps : list Z) : string :=
  String.string_of_list_ascii ((λ c, Ascii.ascii_of_N (Z.to_N c)) <$> cps).

(** ** Counter *)

(** [Counter(words)]: one increment per element. *)
Definition Counter_of (words : list string) : gmap string Z :=
  foldl (λ self elem, <[elem := default 0 (self !! elem) + 1]> self) ∅ words.

(** [self.update(other)] with a mapping: counts are added. *)
Definition Counter_update (self other : gmap string Z) : gmap string Z :=
  map_fold (λ elem count self, <[elem := count + default 0 (self !! elem)]> self)
           self other.

(** ** count_words_bytes *)

(** The words of a buffer in order, [WORD_RE.findall(text)].  Decoding with
    [errors="ignore"] cannot fail, so the [latin-1] fallback of the [except]
    branch is never taken. *)
Definition tokenize (buf : list byte) : list string :=
  let text := lower (utf8_decode_ignore (byte_val <$> buf)) in
  str_of <$> findall text.

Definition count_words_bytes (buf : list byte) : gmap string Z :=
  Counter_of (tokenize buf).

(** ** SegmentWorker.run, consolidate, main *)

(** [f.seek(start); buf = f.read(end - start)] and the count of [buf]; the
    worker stores it at its own index of [results]. *)
Definition worker_buf (f : list byte) (seg : Z * Z) : outcome (list byte) :=
  p ← seek seg.1; Ret (read f p (seg.2 - seg.1)).

Definition worker_run (f : list byte) (seg : Z * Z) : outcome (gmap string Z) :=
  buf ← worker_buf f seg; Ret (count_words_bytes buf).

Definition consolidate (results : list (gmap string Z)) : gmap string Z :=
  foldl (λ total c, if bool_decide (c ≠ ∅) then Counter_update total c else total)
        ∅ results.

(** The key [(-kv[1], kv[0])] and the order of Python tuples on it. *)
Definition sort_key (kv : string * Z) : Z * string := (- kv.2, kv.1).

Definition key_lt (a b : Z * string) : bool :=
  (a.1 <? b.1) || ((a.1 =? b.1) && String.ltb a.2 b.2).

Definition item_le (x y : string * Z) : Prop :=
  key_lt (sort_key y) (sort_key x) = false.

Global Instance item_le_dec x y : Decision (item_le x y).
Proof. unfold item_le. apply _. Defined.

(** [sorted(items, key=lambda kv: (-kv[1], kv[0]))] *)
Definition sorted_items (items : list (string * Z)) : list (string * Z) :=
  merge_sort item_le items.

Record run_result := {
  segs : list (Z * Z);
  results : list (gmap string Z);
  final_counts : gmap string Z;
}.

(** [main] after argument parsing: plan, one worker per segment, join,
    consolidate.  Each worker writes only its own slot of [results] and all
    are joined before [consolidate], so the outcome is that of running them
    in plan order. *)
Definition main (f : list byte) (n : Z) : outcome run_result :=
  segs ← compute_segments f n;
  results ← for_each (worker_run f) segs;
  Ret {| segs := segs; results := results; final_counts := consolidate results |}.

Definition bytes_of (s : string) : list byte := String.list_byte_of_string s.

(** ** Notions used to state the properties of a plan *)

(** The number of word bytes at the front of [l]. *)
Fixpoint word_run (l : list byte) : nat :=
  match l with
  | b :: l' => if is_word_char (byte_val b) then S (word_run l') else O
  | [] => O
  end.

(** Is there a word byte at offset [k] of the file? *)
Definition word_at (f : list byte) (k : Z) : bool :=
  (0 <=? k) && word_char_read (drop (Z.to_nat k) f).

(** The first offset from [p] on whose preceding byte is not a word byte;
    one past the end of the file if there is none. *)
Definition next_boundary (f : list byte) (p : Z) : Z :=
  p + Z.of_nat (word_run (drop (Z.to_nat (p - 1)) f)).

(** Cutting the file at [p] does not cut a word. *)
Definition good_split (f : list byte) (p : Z) : Prop :=
  word_at f (p - 1) = false ∨ Z.of_nat (length f) ≤ p.

(** The ranges of [l] follow one another without gap or overlap from [a] to
    [c], none of negative length, each starting at a good split. *)
Inductive contiguous (f : list byte) : Z → list (Z * Z) → Z → Prop :=
  | contiguous_nil a : contiguous f a [] a
  | contiguous_cons a b c l :
      good_split f a → a ≤ b → contiguous f b l c →
      contiguous f a ((a, b) :: l) c.

(** The bounds of segment [i] as the loops leave them, before merging. *)
Definition raw_start (f : list byte) (approx i : Z) : Z :=
  if 0 <? i * approx then next_boundary f (i * approx) else i * approx.

Definition raw_end (f : list byte) (n approx i : Z) : Z :=
  if i =? n - 1 then Z.of_nat (length f)
  else Z.min (Z.of_nat (length f)) (next_boundary f ((i + 1) * approx)).

(** What the merge loop relies on in the segments still to come, [prev]
    being the end of the segment before them: each starts where the one
    before ends, unless its start ran one past the end of the file. *)
Inductive raw_ok (f : list byte) : Z → list (Z * Z) → Prop :=
  | raw_ok_nil : raw_ok f (Z.of_nat (length f)) []
  | raw_ok_cons prev s e l :
      Z.min s (Z.of_nat (length f)) = prev →
      good_split f s →
      e ≤ Z.of_nat (length f) →
      s ≤ e ∨ (s = Z.of_nat (length f) + 1 ∧ e = Z.of_nat (length f)) →
      raw_ok f e l →
      raw_ok f prev ((s, e) :: l).

(** The file holds ASCII bytes only. *)
Definition is_ascii (f : list byte) : Prop := Forall (λ b, byte_val b < 128) f.

(** A cut between the buffers [l1] and [l2] that leaves words whole: one of
    them is empty, or [l1] ends in a byte that is not a word byte. *)
Definition clean_cut (l1 l2 : list byte) : Prop :=
  l1 = [] ∨ l2 = [] ∨ ∃ l x, l1 = l ++ [x] ∧ is_word_char (byte_val x) = false.

(** The sum of two counts of which either may be absent. *)
Definition opt_sum (x y : option Z) : option Z :=
  match x, y with
  | Some a, Some b => Some (a + b)
  | Some a, None => Some a
  | None, _ => y
  end.

(** The count of [w] summed over the maps that have it, absent if none has. *)
Definition total_count (results : list (gmap string Z)) (w : string) : option Z :=
  foldr (λ c acc, opt_sum (c !! w) acc) None results.

(** How often [w] occurs in [words]. *)
Definition occurrences (w : string) (words : list string) : Z :=
  Z.of_nat (length (filter (w =.) words)).

(** A small letter, a digit or the apostrophe. *)
Definition lower_word_code (c : Z) : bool :=
  ((97 <=? c) && (c <=? 122)) || ((48 <=? c) && (c <=? 57)) || (c =? 39).

Definition is_lower_word (w : string) : Prop :=
  w ≠ ""%string
  ∧ Forall (λ a, lower_word_code (Z.of_N (Ascii.N_of_ascii a)) = true)
           (String.list_ascii_of_string w).


(** The input of the end-to-end example. *)
Definition example_bytes : list byte :=
  bytes_of "the Cat sat on the MAT. the cat's hat!".

(** The file is one run of word bytes. *)
Definition all_word_bytes (f : list byte) : Prop :=
  Forall (λ b, is_word_char (byte_val b) = true) f.

(** The sum of the counts of a Counter. *)
Definition total_counts (m : gmap string Z) : Z :=
  map_fold (λ _ c acc, c + acc) 0 m.

(** ** The order of the items of a Counter

    A [Counter] is a [dict] and keeps its keys in the order in which they
    were first inserted.  The finite map used so far forgets that order;
    [most_common] depends on it, so for the file each worker writes the
    items are modelled as the list the dict holds. *)

(** [self[elem] = self.get(elem, 0) + 1] on the items in insertion order: a
    key that is present keeps its place, a new key goes to the end. *)
Fixpoint dict_incr (items : list (string * Z)) (elem : string)
  : list (string * Z) :=
  match items with
  | [] => [(elem, 0 + 1)]
  | (k, v) :: items' =>
      if decide (k = elem) then (k, v + 1) :: items'
      else (k, v) :: dict_incr items' elem
  end.

(** The items of [Counter(words)]. *)
Definition Counter_items (words : list string) : list (string * Z) :=
  foldl dict_incr [] words.

(** One step of a stable sort by count, largest first: [x] stood before the
    items of [l] and stays before those whose count is not greater. *)
Fixpoint insert_desc (x : string * Z) (l : list (string * Z))
  : list (string * Z) :=
  match l with
  | [] => [x]
  | y :: l' => if x.2 <? y.2 then y :: insert_desc x l' else x :: l
  end.

(** [most_common()], which is
    [sorted(self.items(), key=itemgetter(1), reverse=True)]; [sorted] is
    stable, also with [reverse=True]. *)
Definition most_common (items : list (string * Z)) : list (string * Z) :=
  foldr insert_desc [] items.

(** The lines that [SegmentWorker.run] writes to its file, each line
    [word TAB freq] as the pair of its two fields. *)
Definition intermediate_lines (buf : list byte) : list (string * Z) :=
  most_common (Counter_items (tokenize buf)).

(** A line of the per-thread file does not come before a line with a
    greater count. *)
Definition count_ge (x y : string * Z) : Prop := y.2 ≤ x.2.

(** Which bytes of the file are word bytes. *)
Definition word_pattern (f : list byte) : list bool :=
  (λ b, is_word_char (byte_val b)) <$> f.

(** * Properties of the planner *)

Section planner.
Variable f : list byte.
Local Abbreviation size := (Z.of_nat (length f)).

Lemma Ret_bind {A B} (a : A) (k : A → outcome B) : (Ret a ≫= k) = k a.
Proof. reflexivity. Qed.


Lemma drop_next (k : nat) b (l : list byte) :
  drop k f = b :: l → drop (S k) f = l.
Proof.
  intros E. replace (S k) with (k + 1)%nat by lia.
  rewrite <- drop_drop, E. reflexivity.
Qed.

Lemma seek_read1_nonneg pos :
  0 ≤ pos → seek_read1 f pos = Ret (read f pos 1).
Proof.
  intros H. unfold seek_read1, seek.
  destruct (Z.ltb_spec pos 0); [lia | reflexivity].
Qed.

Lemma seek_read1_neg pos : pos < 0 → seek_read1 f pos = Raise OSError.
Proof.
  intros H. unfold seek_read1, seek.
  destruct (Z.ltb_spec pos 0); [reflexivity | lia].
Qed.

Lemma word_run_length (l : list byte) : (word_run l ≤ length l)%nat.
Proof. induction l as [|b l IH]; simpl; [lia | destruct (is_word_char _); lia]. Qed.

Lemma word_run_drop_bound k : (word_run (drop k f) ≤ length f - k)%nat.
Proof. etrans; [apply word_run_length | rewrite length_drop; lia]. Qed.

Lemma adjust_start_spec fuel start :
  1 ≤ start →
  (word_run (drop (Z.to_nat (start - 1)) f) ≤ fuel)%nat →
  adjust_start fuel f start (read f (start - 1) 1) = Ret (next_boundary f start).
Proof.
  revert start. induction fuel as [|fuel IH]; intros start Hs Hfuel;
    unfold next_boundary, read; simpl (1 <? 0); cbv iota;
    change (Z.to_nat 1) with 1%nat;
    destruct (drop (Z.to_nat (start - 1)) f) as [|b l] eqn:E; simpl in *.
  - f_equal; lia.
  - destruct (is_word_char (byte_val b)); [lia | f_equal; lia].
  - f_equal; lia.
  - destruct (is_word_char (byte_val b)) eqn:Hb; [| f_equal; lia].
    rewrite seek_read1_nonneg by lia. simpl.
    apply drop_next in E.
    replace (S (Z.to_nat (start - 1))) with (Z.to_nat (start + 1 - 1)) in E by lia.
    rewrite IH by (rewrite ?E; lia).
    unfold next_boundary. rewrite E. f_equal; lia.
Qed.

Lemma adjust_end_spec fuel end_ :
  1 ≤ end_ < size →
  (word_run (drop (Z.to_nat (end_ - 1)) f) ≤ fuel)%nat →
  adjust_end fuel f size end_ (read f (end_ - 1) 1)
  = Ret (Z.min size (next_boundary f end_)).
Proof.
  revert end_. induction fuel as [|fuel IH]; intros end_ Hs Hfuel;
    unfold next_boundary, read; simpl (1 <? 0); cbv iota;
    change (Z.to_nat 1) with 1%nat;
    destruct (drop (Z.to_nat (end_ - 1)) f) as [|b l] eqn:E; simpl in *.
  - f_equal; lia.
  - destruct (is_word_char (byte_val b)); [lia | f_equal; lia].
  - f_equal; lia.
  - destruct (is_word_char (byte_val b)) eqn:Hb; [| f_equal; lia].
    destruct (Z.leb_spec size (end_ + 1)); [f_equal; lia |].
    rewrite seek_read1_nonneg by lia. simpl.
    apply drop_next in E.
    replace (S (Z.to_nat (end_ - 1))) with (Z.to_nat (end_ + 1 - 1)) in E by lia.
    rewrite IH by (rewrite ?E; lia).
    unfold next_boundary. rewrite E. f_equal; lia.
Qed.


Lemma word_run_drop_step (l : list byte) k :
  (word_run (drop k l) ≤ 1 + word_run (drop (S k) l))%nat.
Proof.
  replace (S k) with (k + 1)%nat by lia. rewrite <- drop_drop.
  destruct (drop k l) as [|b l']; simpl; [lia |].
  rewrite drop_0. destruct (is_word_char _); lia.
Qed.

Lemma word_run_drop_shift (l : list byte) k j :
  (word_run (drop k l) ≤ j + word_run (drop (k + j) l))%nat.
Proof.
  induction j as [|j IH]; [rewrite Nat.add_0_r; lia |].
  pose proof (word_run_drop_step l (k + j)).
  replace (k + S j)%nat with (S (k + j)) by lia. lia.
Qed.

Lemma next_boundary_mono p q :
  1 ≤ p ≤ q → next_boundary f p ≤ next_boundary f q.
Proof.
  intros H. unfold next_boundary.
  pose proof (word_run_drop_shift f (Z.to_nat (p - 1)) (Z.to_nat (q - p))) as Hs.
  replace (Z.to_nat (p - 1) + Z.to_nat (q - p))%nat with (Z.to_nat (q - 1)) in Hs by lia.
  lia.
Qed.

Lemma next_boundary_ge p : p ≤ next_boundary f p.
Proof. unfold next_boundary. lia. Qed.

Lemma next_boundary_le p : 1 ≤ p ≤ size + 1 → next_boundary f p ≤ size + 1.
Proof.
  intros H. unfold next_boundary.
  pose proof (word_run_drop_bound (Z.to_nat (p - 1))). lia.
Qed.

Lemma word_char_read_drop_run (l : list byte) :
  word_char_read (drop (word_run l) l) = false.
Proof.
  induction l as [|b l IH]; [reflexivity |].
  simpl. destruct (is_word_char (byte_val b)) eqn:Hb; simpl; [exact IH | exact Hb].
Qed.

Lemma good_split_next_boundary p : 1 ≤ p → good_split f (next_boundary f p).
Proof.
  intros H. left. unfold word_at, next_boundary.
  replace (Z.to_nat (p + Z.of_nat (word_run (drop (Z.to_nat (p - 1)) f)) - 1))
    with (Z.to_nat (p - 1) + word_run (drop (Z.to_nat (p - 1)) f))%nat by lia.
  rewrite <- drop_drop, word_char_read_drop_run. apply andb_false_r.
Qed.

Lemma good_split_0 : good_split f 0.
Proof. left. reflexivity. Qed.

Lemma segment_bounds_spec fuel n approx i :
  (length f ≤ fuel)%nat →
  1 ≤ approx → 0 ≤ i < n → n * approx ≤ size →
  segment_bounds fuel f size n approx i
  = Ret (raw_start f approx i, raw_end f n approx i).
Proof.
  intros Hfuel Ha Hi Hn. unfold segment_bounds, raw_start, raw_end.
  assert (Hstart : (if 0 <? i * approx
                    then prev ← seek_read1 f (i * approx - 1);
                         adjust_start fuel f (i * approx) prev
                    else Ret (i * approx))
                   = Ret (if 0 <? i * approx then next_boundary f (i * approx)
                          else i * approx)).
  { destruct (Z.ltb_spec 0 (i * approx)); [| reflexivity].
    rewrite seek_read1_nonneg, Ret_bind by lia.
    apply adjust_start_spec; [lia |].
    pose proof (word_run_drop_bound (Z.to_nat (i * approx - 1))). lia. }
  rewrite Hstart, Ret_bind.
  destruct (Z.eqb_spec i (n - 1)) as [-> | Hne].
  - rewrite Z.ltb_irrefl. reflexivity.
  - assert ((i + 1) * approx < size) by nia.
    destruct (Z.ltb_spec ((i + 1) * approx) size); [| lia].
    rewrite seek_read1_nonneg, Ret_bind by nia.
    rewrite adjust_end_spec; [reflexivity | nia |].
    pose proof (word_run_drop_bound (Z.to_nat ((i + 1) * approx - 1))). lia.
Qed.

Lemma raw_end_le n approx i : raw_end f n approx i ≤ size.
Proof. unfold raw_end. destruct (i =? n - 1); lia. Qed.

Lemma for_each_segments fuel n approx (m : nat) k :
  (length f ≤ fuel)%nat →
  1 ≤ approx → n * approx ≤ size → 0 ≤ k → k + Z.of_nat m = n →
  for_each (segment_bounds fuel f size n approx) (seqZ k (Z.of_nat m))
  = Ret ((λ i, (raw_start f approx i, raw_end f n approx i)) <$> seqZ k (Z.of_nat m)).
Proof.
  intros Hfuel Ha Hn. revert k. induction m as [|m IH]; intros k Hk Hkm.
  - reflexivity.
  - rewrite seqZ_cons by lia. simpl for_each.
    rewrite segment_bounds_spec, Ret_bind by lia.
    replace (Z.succ k) with (k + 1) by lia.
    replace (Z.pred (Z.of_nat (S m))) with (Z.of_nat m) by lia.
    rewrite IH, Ret_bind by lia. reflexivity.
Qed.

Lemma raw_segments_ok n approx (m : nat) k :
  1 ≤ approx → n * approx ≤ size → 1 ≤ k → k + Z.of_nat m = n →
  raw_ok f (raw_end f n approx (k - 1))
    ((λ i, (raw_start f approx i, raw_end f n approx i)) <$> seqZ k (Z.of_nat m)).
Proof.
  intros Ha Hn. revert k. induction m as [|m IH]; intros k Hk Hkm.
  - unfold raw_end. rewrite (proj2 (Z.eqb_eq _ _)) by lia. constructor.
  - rewrite seqZ_cons by lia. rewrite fmap_cons.
    replace (Z.succ k) with (k + 1) by lia.
    replace (Z.pred (Z.of_nat (S m))) with (Z.of_nat m) by lia.
    specialize (IH (k + 1)).
    replace (k + 1 - 1) with k in IH by lia.
    assert (Hpos : 1 ≤ k * approx) by nia.
    assert (Hs : raw_start f approx k = next_boundary f (k * approx)).
    { unfold raw_start. destruct (Z.ltb_spec 0 (k * approx)); [reflexivity | lia]. }
    pose proof (next_boundary_le (k * approx)) as Hle.
    apply raw_ok_cons; [| | apply raw_end_le | | apply IH; lia].
    + rewrite Hs. unfold raw_end.
      destruct (Z.eqb_spec (k - 1) (n - 1)); [lia |].
      replace (k - 1 + 1) with k by lia. lia.
    + rewrite Hs. apply good_split_next_boundary. lia.
    + rewrite Hs. unfold raw_end.
      destruct (Z.eqb_spec k (n - 1)); [nia |].
      pose proof (next_boundary_mono (k * approx) ((k + 1) * approx)). nia.
Qed.

Lemma contiguous_snoc a l b c :
  contiguous f a l b → good_split f b → b ≤ c →
  contiguous f a (l ++ [(b, c)]) c.
Proof.
  induction 1; intros; simpl; constructor; auto. constructor.
Qed.

Lemma contiguous_last a l c :
  contiguous f a l c → l ≠ [] → ∃ l' x, l = l' ++ [(x, c)].
Proof.
  induction 1 as [|a b c l Hg Hab Hc IH]; [done |]. intros _.
  destruct l as [|r l].
  - inversion Hc; subst. by exists [], a.
  - destruct IH as (l' & x & ->); [done |]. by exists ((a, b) :: l'), x.
Qed.

Lemma merge_step_nonempty merged last s e :
  merged ≠ [] →
  merge_step (merged, last) (s, e)
  = if e - s =? 0
    then (alter (λ r, (r.1, Z.max r.2 e)) (length merged - 1)%nat merged, last)
    else (merged ++ [(if e <? Z.max s last then e else Z.max s last, e)], e).
Proof. destruct merged; [done | reflexivity]. Qed.

Lemma merge_fold l merged last :
  merged ≠ [] → contiguous f 0 merged last → raw_ok f last l →
  contiguous f 0 (foldl merge_step (merged, last) l).1 size
  ∧ (foldl merge_step (merged, last) l).1 ≠ [].
Proof.
  revert merged last. induction l as [|[s e] l IH]; intros merged last Hne Hc Hok.
  - inversion Hok; subst. split; [exact Hc | exact Hne].
  - inversion Hok as [|? ? ? ? Hmin Hg He Hse Hok']; subst.
    change (foldl merge_step (merged, s `min` size) ((s, e) :: l))
      with (foldl merge_step (merge_step (merged, s `min` size) (s, e)) l).
    rewrite merge_step_nonempty by done.
    destruct (Z.eqb_spec (e - s) 0) as [Heq | Hneq].
    + assert (s = e) by lia. subst s.
      destruct (contiguous_last _ _ _ Hc Hne) as (l' & x & ->).
      assert (alter (λ r : Z * Z, (r.1, r.2 `max` e))
                (Nat.sub (length (l' ++ [(x, e `min` size)])) 1)
                (l' ++ [(x, e `min` size)])
              = l' ++ [(x, e `min` size)]) as ->.
      { rewrite length_app, Nat.add_sub.
        rewrite <- (Nat.add_0_r (length l')) at 1.
        rewrite alter_app_r. simpl. do 3 f_equal. lia. }
      apply IH; [by destruct l' | exact Hc |].
      replace (e `min` size) with e by lia. exact Hok'.
    + destruct (Z.ltb_spec e (Z.max s (s `min` size))).
      * assert (e = size) by lia. subst e.
        apply IH; [by destruct merged | | exact Hok'].
        assert (s `min` size = size) as Hs by lia. rewrite Hs in Hc.
        apply contiguous_snoc; [exact Hc | right; lia | lia].
      * apply IH; [by destruct merged | | exact Hok'].
        assert (s `min` size = s) as Hs by lia. rewrite Hs in Hc |- *.
        rewrite Z.max_id.
        apply contiguous_snoc; [exact Hc | exact Hg | lia].
Qed.

Lemma compute_segments_fuel_raw fuel n :
  (length f ≤ fuel)%nat → 0 < n ≤ size →
  compute_segments_fuel fuel f n
  = Ret (merge_segments
           ((λ i, (raw_start f (size `div` n) i, raw_end f n (size `div` n) i))
              <$> seqZ 0 n)).
Proof.
  intros Hfuel Hn. unfold compute_segments_fuel.
  destruct (Z.leb_spec n 0); [lia |].
  destruct (Z.eqb_spec size 0); [lia |].
  assert (Ha : 1 ≤ size `div` n).
  { pose proof (Z.div_le_lower_bound size n 1). lia. }
  assert (Hm : n * (size `div` n) ≤ size) by (apply Z.mul_div_le; lia).
  pose proof (for_each_segments fuel n (size `div` n) (Z.to_nat n) 0) as Hfor.
  rewrite Z2Nat.id in Hfor by lia.
  rewrite Hfor by lia. reflexivity.
Qed.

Lemma merge_raw_segments n :
  0 < n ≤ size →
  let plan := merge_segments
    ((λ i, (raw_start f (size `div` n) i, raw_end f n (size `div` n) i)) <$> seqZ 0 n) in
  plan ≠ [] ∧ contiguous f 0 plan size.
Proof.
  intros Hn.
  assert (Ha : 1 ≤ size `div` n).
  { pose proof (Z.div_le_lower_bound size n 1). lia. }
  assert (Hm : n * (size `div` n) ≤ size) by (apply Z.mul_div_le; lia).
  rewrite seqZ_cons by lia. rewrite fmap_cons.
  pose proof (raw_segments_ok n (size `div` n) (Z.to_nat (n - 1)) 1) as Hok.
  replace (Z.of_nat (Z.to_nat (n - 1))) with (Z.pred n) in Hok by lia.
  change (Z.succ 0) with 1. change (1 - 1) with 0 in Hok.
  unfold merge_segments.
  assert (raw_start f (size `div` n) 0 = 0) as -> by reflexivity.
  cbv zeta. apply and_comm.
  apply (merge_fold _ [(0, raw_end f n (size `div` n) 0)]); [done | | apply Hok; lia].
  constructor; [apply good_split_0 | | constructor].
  unfold raw_end. pose proof (next_boundary_ge ((0 + 1) * (size `div` n))).
  destruct (0 =? n - 1); lia.
Qed.

Lemma compute_segments_fuel_plan fuel n :
  (length f ≤ fuel)%nat → 0 < n ≤ size →
  ∃ plan, compute_segments_fuel fuel f n = Ret plan
          ∧ plan ≠ [] ∧ contiguous f 0 plan size.
Proof.
  intros Hfuel Hn. rewrite compute_segments_fuel_raw by done.
  eexists; split; [reflexivity |]. by apply merge_raw_segments.
Qed.

(** With [approx = 0] the first segment's naive end is 0, below the size of
    the file, and the end loop starts with [f.seek(-1)]. *)
Lemma segment_bounds_approx_0 fuel n :
  0 < size → 1 < n → segment_bounds fuel f size n 0 0 = Raise OSError.
Proof.
  intros Hs Hn. unfold segment_bounds.
  change (0 * 0) with 0. change (0 <? 0) with false. cbv iota.
  rewrite Ret_bind.
  destruct (Z.eqb_spec 0 (n - 1)); [lia |].
  change ((0 + 1) * 0) with 0.
  destruct (Z.ltb_spec 0 size); [| lia].
  rewrite seek_read1_neg by lia. reflexivity.
Qed.

Lemma compute_segments_fuel_small fuel n :
  0 < size < n → compute_segments_fuel fuel f n = Raise OSError.
Proof.
  intros Hn. unfold compute_segments_fuel.
  destruct (Z.leb_spec n 0); [lia |].
  destruct (Z.eqb_spec size 0); [lia |].
  rewrite Z.div_small by lia.
  rewrite seqZ_cons by lia. simpl for_each.
  rewrite segment_bounds_approx_0 by lia. reflexivity.
Qed.

Lemma compute_segments_fuel_empty fuel n :
  0 < n → size = 0 → compute_segments_fuel fuel f n = Ret [(0, 0)].
Proof.
  intros Hn Hs. unfold compute_segments_fuel.
  destruct (Z.leb_spec n 0); [lia |].
  destruct (Z.eqb_spec size 0); [reflexivity | lia].
Qed.

Lemma compute_segments_fuel_nonpos fuel n :
  n ≤ 0 → compute_segments_fuel fuel f n = Raise ValueError.
Proof.
  intros Hn. unfold compute_segments_fuel.
  destruct (Z.leb_spec n 0); [reflexivity | lia].
Qed.

(** More iterations than [length f + 1] change nothing: the bound is never
    what stops a loop. *)
Lemma compute_segments_fuel_enough fuel n :
  (length f ≤ fuel)%nat → compute_segments_fuel fuel f n = compute_segments f n.
Proof.
  intros Hfuel. unfold compute_segments.
  destruct (Z.le_gt_cases n 0).
  { by rewrite !compute_segments_fuel_nonpos. }
  destruct (Z.eq_dec size 0).
  { by rewrite !compute_segments_fuel_empty by lia. }
  destruct (Z.lt_ge_cases size n).
  { by rewrite !compute_segments_fuel_small by lia. }
  by rewrite !compute_segments_fuel_raw by lia.
Qed.

End planner.

(** * Properties of a contiguous plan *)

Section contiguous_facts.
Variable f : list byte.
Local Abbreviation size := (Z.of_nat (length f)).

Lemma contiguous_bounds a l c :
  contiguous f a l c →
  a ≤ c ∧ ∀ r, r ∈ l → a ≤ r.1 ∧ r.1 ≤ r.2 ∧ r.2 ≤ c.
Proof.
  induction 1 as [|a b c l Hg Hab Hc [IH1 IH2]]; [split; [lia | inversion 1] |].
  split; [lia |]. intros r [-> | Hr]%elem_of_cons; simpl; [lia |].
  specialize (IH2 r Hr). lia.
Qed.

Lemma contiguous_adjacent a l c i r1 r2 :
  contiguous f a l c → l !! i = Some r1 → l !! S i = Some r2 →
  r1.2 = r2.1 ∧ good_split f r2.1.
Proof.
  intros Hc. revert i. induction Hc as [|a b c l Hg Hab Hc IH]; intros i; [done |].
  destruct i as [|i]; simpl.
  - intros [= <-] H2. inversion Hc; subst; simplify_eq/=. done.
  - apply IH.
Qed.

Lemma contiguous_pairwise a l c i j r1 r2 :
  contiguous f a l c → (i < j)%nat → l !! i = Some r1 → l !! j = Some r2 →
  r1.2 ≤ r2.1.
Proof.
  intros Hc. revert i j. induction Hc as [|a b c l Hg Hab Hc IH]; intros i j; [done |].
  destruct j as [|j]; [lia |]. destruct i as [|i]; simpl.
  - intros _ [= <-] H2. apply contiguous_bounds in Hc as [_ Hc].
    apply list_elem_of_lookup_2 in H2. specialize (Hc _ H2). simpl. lia.
  - intros Hij. apply IH. lia.
Qed.

(** Every offset of the file lies in exactly the ranges the plan says. *)
Lemma contiguous_cover a l c x :
  contiguous f a l c → (a ≤ x < c ↔ ∃ r, r ∈ l ∧ r.1 ≤ x < r.2).
Proof.
  induction 1 as [|a b c l Hg Hab Hc IH].
  - split; [lia | intros (r & Hr & _); inversion Hr].
  - pose proof (contiguous_bounds _ _ _ Hc) as [Hbc _]. split.
    + intros Hx. destruct (Z.lt_ge_cases x b).
      * exists (a, b). split; [left | simpl; lia].
      * destruct (proj1 IH) as (r & Hr & Hxr); [lia |].
        exists r. split; [by right | done].
    + intros (r & [-> | Hr]%elem_of_cons & Hxr); simpl in *; [lia |].
      destruct (proj2 IH) as [? ?]; [by exists r | lia].
Qed.

End contiguous_facts.

(** * Properties of the tokenization *)

Lemma word_re_class_is_word_char c : word_re_class c = is_word_char c.
Proof. reflexivity. Qed.

Lemma utf8_decode_ignore_ascii (bs : list Z) :
  Forall (λ b, b < 128) bs → utf8_decode_ignore bs = bs.
Proof.
  induction 1 as [|b bs Hb _ IH]; [reflexivity |].
  simpl. destruct (Z.ltb_spec b 128); [by rewrite IH | lia].
Qed.

Lemma lower_app t1 t2 : lower (t1 ++ t2) = lower t1 ++ lower t2.
Proof. apply bind_app. Qed.

Lemma lower_char_not_word c :
  c < 128 → is_word_char c = false → lower_char c = [c].
Proof.
  intros Hc Hw. unfold lower_char, is_word_char in *.
  destruct (Z.leb_spec 65 c), (Z.leb_spec c 90); simpl in *; try done.
  all: destruct (Z.eqb_spec c 304); [lia |].
  all: destruct (Z.eqb_spec c 8490); [lia | done].
Qed.

Lemma lower_not_word c :
  c < 128 → is_word_char c = false → lower [c] = [c].
Proof.
  intros Hc Hw. unfold lower. rewrite bind_cons, lower_char_not_word by done.
  reflexivity.
Qed.

Lemma findall_from_app_sep cur t1 c t2 :
  word_re_class c = false →
  findall_from cur (t1 ++ c :: t2)
  = findall_from cur (t1 ++ [c]) ++ findall_from [] t2.
Proof.
  intros Hc. revert cur. induction t1 as [|x t1 IH]; intros cur; simpl.
  - rewrite Hc. simpl. by rewrite app_nil_r.
  - destruct (word_re_class x); [apply IH |].
    rewrite IH. by rewrite app_assoc.
Qed.

Lemma is_ascii_app l1 l2 : is_ascii (l1 ++ l2) ↔ is_ascii l1 ∧ is_ascii l2.
Proof. apply Forall_app. Qed.

Lemma tokenize_ascii buf :
  is_ascii buf → tokenize buf = str_of <$> findall (lower (byte_val <$> buf)).
Proof.
  intros H. unfold tokenize. rewrite utf8_decode_ignore_ascii; [done |].
  by apply Forall_fmap.
Qed.

(** On ASCII buffers the words of two pieces are the words of the whole when
    the cut between them is clean. *)
Lemma tokenize_app l1 l2 :
  is_ascii l1 → is_ascii l2 → clean_cut l1 l2 →
  tokenize (l1 ++ l2) = tokenize l1 ++ tokenize l2.
Proof.
  intros H1 H2 [-> | [-> | (l & x & -> & Hx)]].
  - reflexivity.
  - by rewrite !app_nil_r.
  - rewrite !tokenize_ascii by (done || by apply is_ascii_app).
    apply is_ascii_app in H1 as [_ Hx128].
    apply (Forall_inv (P := λ b, byte_val b < 128)) in Hx128.
    rewrite <- fmap_app. f_equal.
    rewrite !fmap_app, !lower_app.
    change (byte_val <$> [x]) with [byte_val x].
    rewrite (lower_not_word (byte_val x) Hx128 Hx).
    unfold findall. rewrite <- app_assoc. simpl.
    by rewrite findall_from_app_sep.
Qed.

(** * The plan and the words of the file *)

Section plan_tokens.
Variable f : list byte.
Local Abbreviation size := (Z.of_nat (length f)).

Lemma worker_buf_nonneg r :
  0 ≤ r.1 → worker_buf f r = Ret (read f r.1 (r.2 - r.1)).
Proof.
  intros H. unfold worker_buf, seek.
  destruct (Z.ltb_spec r.1 0); [lia | reflexivity].
Qed.


Lemma for_each_worker_buf (l : list (Z * Z)) :
  (∀ r, r ∈ l → 0 ≤ r.1) →
  for_each (worker_buf f) l = Ret ((λ r, read f r.1 (r.2 - r.1)) <$> l).
Proof.
  induction l as [|r l IH]; intros Hl; [reflexivity |].
  simpl for_each. rewrite worker_buf_nonneg by (apply Hl; left).
  rewrite Ret_bind, IH; [reflexivity |].
  intros r' Hr'. apply Hl. by right.
Qed.

Lemma read_range a b :
  0 ≤ a ≤ b → read f a (b - a) = take (Z.to_nat (b - a)) (drop (Z.to_nat a) f).
Proof.
  intros H. unfold read. destruct (Z.ltb_spec (b - a) 0); [lia | reflexivity].
Qed.

Lemma read_drop_split a b :
  0 ≤ a ≤ b → drop (Z.to_nat a) f = read f a (b - a) ++ drop (Z.to_nat b) f.
Proof.
  intros H. rewrite read_range by done.
  replace (Z.to_nat b) with (Z.to_nat a + Z.to_nat (b - a))%nat by lia.
  rewrite <- drop_drop. by rewrite take_drop.
Qed.

Lemma clean_cut_of_split a b :
  0 ≤ a ≤ b → good_split f b →
  clean_cut (read f a (b - a)) (drop (Z.to_nat b) f).
Proof.
  intros Hab [Hw | Hb].
  - destruct (Z.eq_dec a b) as [-> | Hne].
    { left. rewrite read_range by lia. by rewrite Z.sub_diag. }
    destruct (Z.le_gt_cases size b).
    { right; left. apply drop_ge. lia. }
    right; right. rewrite read_range by lia.
    destruct (f !! Z.to_nat (b - 1)) as [x|] eqn:Hx.
    2: { apply lookup_ge_None in Hx. lia. }
    exists (take (Z.to_nat (b - a - 1)) (drop (Z.to_nat a) f)), x. split.
    + replace (Z.to_nat (b - a)) with (S (Z.to_nat (b - a - 1))) by lia.
      apply take_S_r. rewrite lookup_drop.
      replace (Z.to_nat a + Z.to_nat (b - a - 1))%nat with (Z.to_nat (b - 1)) by lia.
      exact Hx.
    + unfold word_at in Hw. rewrite (drop_S _ _ _ Hx) in Hw. simpl in Hw.
      destruct (Z.leb_spec 0 (b - 1)); [exact Hw | lia].
  - right; left. apply drop_ge. lia.
Qed.

Lemma contiguous_start_split a l :
  contiguous f a l size → good_split f a.
Proof. inversion 1; subst; [right; lia | done]. Qed.

Lemma is_ascii_read a k : is_ascii f → is_ascii (read f a k).
Proof.
  intros H. unfold read, is_ascii. destruct (k <? 0).
  - by apply Forall_drop.
  - by apply Forall_take, Forall_drop.
Qed.

Lemma contiguous_tokens a l c :
  is_ascii f → 0 ≤ a → contiguous f a l c → c = size →
  concat (tokenize <$> ((λ r, read f r.1 (r.2 - r.1)) <$> l))
  = tokenize (drop (Z.to_nat a) f).
Proof.
  intros Hf Ha Hc. induction Hc as [|a b c l Hg Hab Hc IH]; intros ->.
  - rewrite drop_ge by lia. reflexivity.
  - rewrite !fmap_cons. simpl concat. rewrite IH by (done || lia). simpl.
    rewrite (read_drop_split a b) by lia.
    rewrite tokenize_app; [done | by apply is_ascii_read | by apply Forall_drop |].
    apply clean_cut_of_split; [lia |]. by eapply contiguous_start_split.
Qed.

(** What a returned plan looks like, whatever the file and the count. *)
Lemma compute_segments_Ret_inv n plan :
  compute_segments f n = Ret plan →
  0 < n ∧ plan ≠ [] ∧ contiguous f 0 plan size.
Proof.
  intros H. unfold compute_segments in H.
  destruct (Z.le_gt_cases n 0).
  { by rewrite compute_segments_fuel_nonpos in H. }
  split; [lia |].
  destruct (Z.eq_dec size 0) as [Hs | Hs].
  { rewrite compute_segments_fuel_empty in H by lia. injection H as <-.
    split; [done |]. rewrite Hs.
    constructor; [apply good_split_0 | lia | constructor]. }
  destruct (Z.lt_ge_cases size n).
  { by rewrite compute_segments_fuel_small in H by lia. }
  destruct (compute_segments_fuel_plan f (S (length f)) n) as (plan' & Hp & ?);
    [lia | lia |].
  rewrite Hp in H. by injection H as <-.
Qed.

(** The planner succeeds exactly when the count is positive and the file is
    empty or has at least as many bytes as segments are asked for. *)
Lemma compute_segments_cases n :
  (n ≤ 0 ∧ compute_segments f n = Raise ValueError)
  ∨ (0 < n ∧ size = 0 ∧ compute_segments f n = Ret [(0, 0)])
  ∨ (0 < size < n ∧ compute_segments f n = Raise OSError)
  ∨ (0 < n ≤ size ∧ ∃ plan, compute_segments f n = Ret plan).
Proof.
  unfold compute_segments.
  destruct (Z.le_gt_cases n 0).
  { left. by rewrite compute_segments_fuel_nonpos. }
  destruct (Z.eq_dec size 0).
  { right; left. by rewrite compute_segments_fuel_empty by lia. }
  destruct (Z.lt_ge_cases size n).
  { right; right; left. split; [lia |]. by rewrite compute_segments_fuel_small by lia. }
  right; right; right. split; [lia |].
  destruct (compute_segments_fuel_plan f (S (length f)) n) as (plan & Hp & _);
    [lia | lia |].
  by exists plan.
Qed.


End plan_tokens.

(** * Properties of Counter and consolidate *)

Lemma opt_sum_comm x y : opt_sum x y = opt_sum y x.
Proof. destruct x, y; simpl; f_equal; lia. Qed.

Lemma opt_sum_assoc x y z : opt_sum x (opt_sum y z) = opt_sum (opt_sum x y) z.
Proof. destruct x, y, z; simpl; f_equal; lia. Qed.

Lemma Counter_update_lookup (self other : gmap string Z) w :
  Counter_update self other !! w = opt_sum (other !! w) (self !! w).
Proof.
  unfold Counter_update. revert w.
  apply (map_fold_weak_ind (λ r m, ∀ w, r !! w = opt_sum (m !! w) (self !! w))).
  - intros w. by rewrite lookup_empty.
  - intros i x m r Hi IH w. destruct (decide (i = w)) as [-> | Hne].
    + rewrite !lookup_insert_eq. rewrite (IH w), Hi. simpl.
      destruct (self !! w); simpl; f_equal; lia.
    + rewrite !lookup_insert_ne by done. apply IH.
Qed.

Lemma consolidate_fold_lookup (results : list (gmap string Z)) total w :
  foldl (λ total c, if bool_decide (c ≠ ∅) then Counter_update total c else total)
        total results !! w
  = opt_sum (total !! w) (total_count results w).
Proof.
  revert total. induction results as [|c results IH]; intros total; simpl.
  - by destruct (total !! w).
  - rewrite IH. case_bool_decide as Hc.
    + rewrite Counter_update_lookup, (opt_sum_comm (c !! w)).
      by rewrite opt_sum_assoc.
    + subst c. by rewrite lookup_empty.
Qed.

Lemma consolidate_lookup results w :
  consolidate results !! w = total_count results w.
Proof. unfold consolidate. by rewrite consolidate_fold_lookup, lookup_empty. Qed.

Lemma total_count_perm rs rs' w :
  rs ≡ₚ rs' → total_count rs w = total_count rs' w.
Proof.
  induction 1 as [| c rs rs' _ IH | c c' rs | rs rs' rs'' _ IH1 _ IH2]; simpl.
  - done.
  - by rewrite IH.
  - rewrite !opt_sum_assoc. by rewrite (opt_sum_comm (c' !! w)).
  - by rewrite IH1.
Qed.

Lemma total_count_sum rs w :
  default 0 (total_count rs w) = foldr Z.add 0 ((λ c, default 0 (c !! w)) <$> rs).
Proof.
  induction rs as [|c rs IH]; [done |].
  rewrite fmap_cons. change (foldr Z.add 0 (?x :: ?l)) with (x + foldr Z.add 0 l).
  rewrite <- IH. change (total_count (c :: rs) w) with (opt_sum (c !! w) (total_count rs w)).
  destruct (c !! w), (total_count rs w); simpl; lia.
Qed.

Lemma total_count_None rs w :
  total_count rs w = None ↔ ∀ c, c ∈ rs → c !! w = None.
Proof.
  induction rs as [|c rs IH]; simpl.
  - split; [intros _ c Hc; inversion Hc | done].
  - split.
    + intros H c' [-> | Hc']%elem_of_cons.
      * by destruct (c !! w), (total_count rs w).
      * apply IH; [| done]. by destruct (c !! w), (total_count rs w).
    + intros H. rewrite (H c) by left. simpl. apply IH.
      intros c' Hc'. apply H. by right.
Qed.

Lemma total_count_skip_empty rs1 rs2 w :
  total_count (rs1 ++ ∅ :: rs2) w = total_count (rs1 ++ rs2) w.
Proof.
  induction rs1 as [|c rs1 IH]; simpl; [by rewrite lookup_empty | by rewrite IH].
Qed.

Lemma Counter_of_fold_lookup words (self : gmap string Z) w :
  foldl (λ self elem, <[elem := default 0 (self !! elem) + 1]> self) self words !! w
  = if decide (occurrences w words = 0) then self !! w
    else Some (default 0 (self !! w) + occurrences w words).
Proof.
  unfold occurrences. revert self.
  induction words as [|x words IH]; intros self; simpl; [done |].
  rewrite IH. rewrite filter_cons. destruct (decide (w = x)) as [<- | Hne].
  - rewrite lookup_insert_eq. simpl length.
    repeat case_decide; simpl; try lia; f_equal; lia.
  - rewrite lookup_insert_ne by done. reflexivity.
Qed.

Lemma Counter_of_lookup words w :
  Counter_of words !! w
  = if decide (occurrences w words = 0) then None else Some (occurrences w words).
Proof.
  unfold Counter_of. rewrite Counter_of_fold_lookup, lookup_empty.
  case_decide; [done | simpl; f_equal; lia].
Qed.

Lemma occurrences_pos w words : occurrences w words ≠ 0 → w ∈ words.
Proof.
  unfold occurrences. intros H.
  destruct (filter (w =.) words) as [|x l] eqn:E; [done |].
  assert (x ∈ filter (w =.) words) as [<- ?]%list_elem_of_filter by (rewrite E; left).
  done.
Qed.

(** * Properties of the words found *)

Lemma lower_char_no_capital x c : c ∈ lower_char x → ¬ (65 ≤ c ≤ 90).
Proof.
  unfold lower_char.
  destruct (Z.leb_spec 65 x), (Z.leb_spec x 90); simpl.
  1: { intros ->%list_elem_of_singleton. lia. }
  all: destruct (Z.eqb_spec x 304);
    [intros [-> | ->%list_elem_of_singleton]%elem_of_cons; lia |].
  all: destruct (Z.eqb_spec x 8490); intros ->%list_elem_of_singleton; lia.
Qed.

Lemma lower_no_capital text c : c ∈ lower text → ¬ (65 ≤ c ≤ 90).
Proof.
  unfold lower. intros (x & Hc & _)%list_elem_of_bind.
  by eapply lower_char_no_capital.
Qed.

Lemma word_re_class_lower c :
  word_re_class c = true → ¬ (65 ≤ c ≤ 90) → lower_word_code c = true.
Proof.
  unfold word_re_class, lower_word_code. intros H Hc.
  destruct (Z.leb_spec 65 c), (Z.leb_spec c 90); simpl in *; (lia || done).
Qed.

Lemma findall_from_elem (P : Z → Prop) cur text tok :
  Forall P cur →
  (∀ c, c ∈ text → word_re_class c = true → P c) →
  tok ∈ findall_from cur text → tok ≠ [] ∧ Forall P tok.
Proof.
  revert cur. induction text as [|c text IH]; intros cur Hcur Htext; simpl.
  - destruct cur; simpl; [inversion 1 |].
    by intros ->%list_elem_of_singleton.
  - destruct (word_re_class c) eqn:Hc.
    + apply IH.
      * apply Forall_app. split; [done |]. apply Forall_singleton.
        apply Htext; [left | done].
      * intros c' Hc'. apply Htext. by right.
    + intros [Htok | Htok]%elem_of_app.
      * destruct cur; simpl in Htok; [inversion Htok |].
        by apply list_elem_of_singleton in Htok as ->.
      * apply (IH []); [constructor | | done].
        intros c' Hc'. apply Htext. by right.
Qed.

Lemma str_of_is_lower_word tok :
  tok ≠ [] → Forall (λ c, lower_word_code c = true) tok → is_lower_word (str_of tok).
Proof.
  intros Hne Htok. unfold is_lower_word, str_of. split.
  - destruct tok; [done | simpl; discriminate].
  - rewrite String.list_ascii_of_string_of_list_ascii.
    apply Forall_fmap. eapply Forall_impl; [exact Htok |].
    intros c Hc. simpl.
    assert (0 ≤ c < 256).
    { unfold lower_word_code in Hc.
      destruct (Z.leb_spec 97 c), (Z.leb_spec c 122), (Z.leb_spec 48 c),
        (Z.leb_spec c 57), (Z.eqb_spec c 39); simpl in Hc; (lia || done). }
    rewrite Ascii.N_ascii_embedding by lia.
    by rewrite Z2N.id by lia.
Qed.

Lemma tokenize_is_lower_word buf w : w ∈ tokenize buf → is_lower_word w.
Proof.
  unfold tokenize. intros (tok & -> & Htok)%list_elem_of_fmap.
  apply (findall_from_elem (λ c, lower_word_code c = true)) in Htok
    as [Hne Hall]; [by apply str_of_is_lower_word | constructor |].
  intros c Hc Hclass. apply word_re_class_lower; [done |].
  by eapply lower_no_capital.
Qed.

(** * Properties of the sort *)

Lemma ltb_asym (a b : string) : String.ltb a b = true → String.ltb b a = false.
Proof.
  unfold String.ltb. rewrite (String.compare_antisym a b).
  by destruct (String.compare b a).
Qed.

Lemma ltb_connex (a b : string) :
  a ≠ b → String.ltb b a = false → String.ltb a b = true.
Proof.
  unfold String.ltb. rewrite (String.compare_antisym a b).
  destruct (String.compare b a) eqn:E; simpl; try done.
  apply String.compare_eq_iff in E. congruence.
Qed.

Global Instance item_le_total : Total item_le.
Proof.
  intros [w1 c1] [w2 c2]. unfold item_le, key_lt, sort_key. simpl.
  destruct (Z.ltb_spec (- c2) (- c1)), (Z.ltb_spec (- c1) (- c2)); simpl;
    try lia; auto.
  destruct (Z.eqb_spec (- c2) (- c1)), (Z.eqb_spec (- c1) (- c2)); simpl;
    try lia; auto.
  destruct (String.ltb w2 w1) eqn:E; [right; by apply ltb_asym | by left].
Qed.



(** * The planner on the example inputs *)


(** A word that runs to the end of the file sends the next start one past
    the end; the merge loop clamps it to an empty range. *)
Example plan_one_word :
  compute_segments (bytes_of "aaaa") 2 = Ret [(0, 4); (4, 4)].
Proof. vm_compute. reflexivity. Qed.

(** A byte that is ill-formed in UTF-8 is dropped by the decoder, and the
    Kelvin sign (E2 84 AA) lower-cases to the letter [k]: in both cases bytes
    that are not word bytes leave no gap between the letters around them. *)
Example tokenize_dropped_byte :
  tokenize ["a"%byte; xff; "b"%byte] = ["ab"%string].
Proof. vm_compute. reflexivity. Qed.

Example tokenize_kelvin_sign :
  tokenize ["a"%byte; xe2; x84; xaa; "b"%byte] = ["akb"%string].
Proof. vm_compute. reflexivity. Qed.

Example sorted_example :
  sorted_items (map_to_list (count_words_bytes example_bytes))
  = [("the", 3); ("cat", 1); ("cat's", 1); ("hat", 1); ("mat", 1); ("on", 1);
     ("sat", 1)]%string.
Proof. vm_compute. reflexivity. Qed.

(** * The planner covers the file when it returns *)

Lemma plan_covers_file (f : list byte) n plan :
  compute_segments f n = Ret plan →
  ∀ x, 0 ≤ x < Z.of_nat (length f) ↔ ∃ r, r ∈ plan ∧ r.1 ≤ x < r.2.
Proof.
  intros (_ & _ & Hc)%compute_segments_Ret_inv x.
  exact (contiguous_cover f _ _ _ x Hc).
Qed.

Lemma plan_exists (f : list byte) n :
  0 < n ≤ Z.of_nat (length f) → ∃ plan, compute_segments f n = Ret plan.
Proof.
  intros H. destruct (compute_segments_fuel_plan f (S (length f)) n)
    as (plan & Hp & _); [lia | lia |].
  by exists plan.
Qed.

Lemma main_raise (f : list byte) n e :
  compute_segments f n = Raise e → main f n = Raise e.
Proof. intros H. unfold main. by rewrite H. Qed.


(** * Main results *)

(** C1 (as amended).  Whenever the planner returns a plan, consecutive ranges
    of the plan meet at an offset that does not lie inside a run of word
    bytes, for every file content; and when the file holds ASCII bytes only,
    the words of the buffers the workers read, concatenated in plan order,
    are exactly the words of the whole file in order. *)
Theorem plan_keeps_words_whole (f : list byte) (n : Z) (plan : list (Z * Z)) :
  compute_segments f n = Ret plan →
  (∀ i r1 r2, plan !! i = Some r1 → plan !! S i = Some r2 →
     r1.2 = r2.1 ∧ ¬ (word_at f (r1.2 - 1) = true ∧ word_at f r2.1 = true))
  ∧ (is_ascii f →
     ∃ bufs, for_each (worker_buf f) plan = Ret bufs
             ∧ concat (tokenize <$> bufs) = tokenize f).
Proof.
  intros (_ & _ & Hc)%compute_segments_Ret_inv. split.
  - intros i r1 r2 H1 H2.
    destruct (contiguous_adjacent f _ _ _ _ _ _ Hc H1 H2) as [Heq Hg].
    split; [done |]. rewrite Heq. intros [Hl Hr]. destruct Hg as [Hg | Hg].
    + congruence.
    + unfold word_at in Hr. rewrite drop_ge in Hr by lia.
      by rewrite andb_false_r in Hr.
  - intros Hf. eexists. split.
    + apply for_each_worker_buf. intros r Hr.
      apply contiguous_bounds in Hc as [_ Hc]. specialize (Hc r Hr). lia.
    + by rewrite (contiguous_tokens f 0 plan _ Hf ltac:(lia) Hc eq_refl).
Qed.

Lemma plan_keeps_words_whole_witness :
  compute_segments example_bytes 3 = Ret [(0, 12); (12, 24); (24, 38)]
  ∧ is_ascii example_bytes
  ∧ ∃ bufs, for_each (worker_buf example_bytes) [(0, 12); (12, 24); (24, 38)] = Ret bufs
            ∧ concat (tokenize <$> bufs) = tokenize example_bytes.
Proof.
  assert (H : compute_segments example_bytes 3 = Ret [(0, 12); (12, 24); (24, 38)])
    by (vm_compute; reflexivity).
  assert (Ha : is_ascii example_bytes)
    by (unfold is_ascii; repeat constructor).
  split; [exact H |]. split; [exact Ha |].
  exact (proj2 (plan_keeps_words_whole example_bytes 3 _ H) Ha).
Defined.

(** C1, as stated, fails on the three bytes [a], 0xFF, [b] with three
    segments: the plan cuts after the byte 0xFF, the two buffers hold the
    words [a] and [b], but decoding the whole file drops the byte 0xFF and
    leaves the single word [ab]. *)
Lemma plan_glues_words_across_dropped_byte :
  compute_segments ["a"%byte; xff; "b"%byte] 3 = Ret [(0, 2); (2, 3)]
  ∧ for_each (worker_buf ["a"%byte; xff; "b"%byte]) [(0, 2); (2, 3)]
    = Ret [["a"%byte; xff]; ["b"%byte]]
  ∧ concat (tokenize <$> [["a"%byte; xff]; ["b"%byte]]) = ["a"; "b"]%string
  ∧ tokenize ["a"%byte; xff; "b"%byte] = ["ab"%string]
  ∧ concat (tokenize <$> [["a"%byte; xff]; ["b"%byte]])
    ≠ tokenize ["a"%byte; xff; "b"%byte].
Proof. vm_compute. repeat split; try reflexivity. discriminate. Qed.

(** C2.  On a file that is not empty and has fewer bytes than segments are
    asked for, the planner returns no plan: the first segment's naive end is
    0, and the end loop seeks to offset -1. *)
Theorem small_file_plan_raises (f : list byte) (n : Z) :
  0 < Z.of_nat (length f) < n → compute_segments f n = Raise OSError.
Proof. intros H. by apply compute_segments_fuel_small. Qed.

Lemma small_file_plan_raises_witness :
  0 < Z.of_nat (length (bytes_of "ab")) < 3
  ∧ compute_segments (bytes_of "ab") 3 = Raise OSError.
Proof.
  split; [simpl; lia |]. apply (small_file_plan_raises (bytes_of "ab") 3).
  simpl; lia.
Defined.

(** C3.  On every file of three bytes with ten segments requested the run
    stops with [OSError] in the planner, before any worker is started. *)
Theorem three_bytes_ten_segments_raise (b0 b1 b2 : byte) :
  compute_segments [b0; b1; b2] 10 = Raise OSError
  ∧ main [b0; b1; b2] 10 = Raise OSError.
Proof.
  assert (H : compute_segments [b0; b1; b2] 10 = Raise OSError).
  { apply compute_segments_fuel_small. simpl. lia. }
  split; [exact H | by apply main_raise].
Qed.

(** C4.  In a plan returned by the planner, two distinct ranges have no
    offset in common, the starts are in non-decreasing order, and no range
    ends before it starts.  (The planner returns only for a positive count,
    so that condition need not be assumed.) *)
Theorem plan_ordered_disjoint (f : list byte) (n : Z) (plan : list (Z * Z)) :
  compute_segments f n = Ret plan →
  (∀ i j r1 r2 x, i ≠ j → plan !! i = Some r1 → plan !! j = Some r2 →
     ¬ (r1.1 ≤ x < r1.2 ∧ r2.1 ≤ x < r2.2))
  ∧ (∀ i j r1 r2, (i ≤ j)%nat → plan !! i = Some r1 → plan !! j = Some r2 →
       r1.1 ≤ r2.1)
  ∧ (∀ r, r ∈ plan → r.1 ≤ r.2).
Proof.
  intros (_ & _ & Hc)%compute_segments_Ret_inv.
  pose proof (contiguous_bounds f _ _ _ Hc) as [_ Hb].
  split; [| split].
  - intros i j r1 r2 x Hij H1 H2 [Hx1 Hx2].
    destruct (Nat.lt_total i j) as [Hlt | [-> | Hlt]]; [| done |].
    + pose proof (contiguous_pairwise f _ _ _ _ _ _ _ Hc Hlt H1 H2). lia.
    + pose proof (contiguous_pairwise f _ _ _ _ _ _ _ Hc Hlt H2 H1). lia.
  - intros i j r1 r2 Hij H1 H2.
    destruct (decide (i = j)) as [-> | Hne]; [simplify_eq; lia |].
    assert (Hlt : (i < j)%nat) by lia.
    pose proof (contiguous_pairwise f _ _ _ _ _ _ _ Hc Hlt H1 H2).
    apply list_elem_of_lookup_2 in H1. specialize (Hb _ H1). lia.
  - intros r Hr. specialize (Hb _ Hr). lia.
Qed.

Lemma plan_ordered_disjoint_witness :
  compute_segments (bytes_of "aaaa") 2 = Ret [(0, 4); (4, 4)]
  ∧ (∀ r, r ∈ [(0, 4); (4, 4)] → r.1 ≤ r.2).
Proof.
  assert (H : compute_segments (bytes_of "aaaa") 2 = Ret [(0, 4); (4, 4)])
    by (vm_compute; reflexivity).
  split; [exact H |].
  exact (proj2 (proj2 (plan_ordered_disjoint (bytes_of "aaaa") 2 _ H))).
Defined.

(** C5.  For every positive segment count the plan of the empty file is the
    single range (0, 0). *)
Theorem empty_file_plan (n : Z) : 0 < n → compute_segments [] n = Ret [(0, 0)].
Proof. intros H. by apply compute_segments_fuel_empty. Qed.

Lemma empty_file_plan_witness : 0 < 7 ∧ compute_segments [] 7 = Ret [(0, 0)].
Proof. split; [lia | apply (empty_file_plan 7); lia]. Defined.



(** C7.  With a segment count that is zero or negative the planner raises
    [ValueError] for every file, and so does the run: nothing is planned and
    no worker is started. *)
Theorem nonpositive_count_raises (f : list byte) (n : Z) :
  n ≤ 0 → compute_segments f n = Raise ValueError ∧ main f n = Raise ValueError.
Proof.
  intros H.
  assert (Hc : compute_segments f n = Raise ValueError)
    by by apply compute_segments_fuel_nonpos.
  split; [exact Hc | by apply main_raise].
Qed.

Lemma nonpositive_count_raises_witness :
  0 ≤ 0 ∧ compute_segments example_bytes 0 = Raise ValueError
  ∧ main example_bytes 0 = Raise ValueError.
Proof. split; [lia | apply (nonpositive_count_raises example_bytes 0); lia]. Defined.

(** C8.  [consolidate] gives every word the sum of its counts over the input
    maps, a map without the word counting as zero; a word is absent from the
    result exactly when it is absent from every input; the result is the
    same for every permutation of the inputs; and an empty map among the
    inputs changes nothing. *)
Theorem consolidate_sums_counts (rs rs' : list (gmap string Z)) :
  rs ≡ₚ rs' →
  (∀ w, default 0 (consolidate rs !! w)
        = foldr Z.add 0 ((λ c : gmap string Z, default 0 (c !! w)) <$> rs))
  ∧ (∀ w, consolidate rs !! w = None ↔ ∀ c, c ∈ rs → c !! w = None)
  ∧ consolidate rs' = consolidate rs
  ∧ (∀ rs1 rs2, rs = rs1 ++ ∅ :: rs2 → consolidate rs = consolidate (rs1 ++ rs2)).
Proof.
  intros Hperm. split; [| split; [| split]].
  - intros w. rewrite consolidate_lookup. apply total_count_sum.
  - intros w. rewrite consolidate_lookup. apply total_count_None.
  - apply map_eq. intros w. rewrite !consolidate_lookup.
    symmetry. by apply total_count_perm.
  - intros rs1 rs2 ->. apply map_eq. intros w. rewrite !consolidate_lookup.
    apply total_count_skip_empty.
Qed.

Lemma consolidate_sums_counts_witness :
  {["cat"%string := 2]} :: [∅; {["the"%string := 1]}]
    ≡ₚ [∅; {["the"%string := 1]}] ++ [({["cat"%string := 2]} : gmap string Z)]
  ∧ consolidate ([∅; {["the"%string := 1]}] ++ [{["cat"%string := 2]}])
    = consolidate ({["cat"%string := 2]} :: [∅; {["the"%string := 1]}]).
Proof.
  assert (H : {["cat"%string := 2]} :: [∅; {["the"%string := 1]}]
              ≡ₚ [∅; {["the"%string := 1]}] ++ [({["cat"%string := 2]} : gmap string Z)])
    by apply Permutation_cons_append.
  split; [exact H |].
  exact (proj1 (proj2 (proj2 (consolidate_sums_counts _ _ H)))).
Defined.



(** C10.  [count_words_bytes] is a total function of the buffer, and every
    entry of its result has a key that is a non-empty string of small
    letters, digits and apostrophes and a count of at least 1. *)
Theorem count_words_bytes_entries (buf : list byte) (w : string) (c : Z) :
  count_words_bytes buf !! w = Some c → is_lower_word w ∧ 1 ≤ c.
Proof.
  unfold count_words_bytes. rewrite Counter_of_lookup.
  case_decide as Hocc; [done |]. intros [= <-]. split.
  - apply (tokenize_is_lower_word buf). by apply occurrences_pos.
  - unfold occurrences in *. lia.
Qed.

Lemma count_words_bytes_entries_witness :
  count_words_bytes (bytes_of "A cat, a CAT") !! "cat"%string = Some 2
  ∧ is_lower_word "cat" ∧ 1 ≤ 2.
Proof.
  assert (H : count_words_bytes (bytes_of "A cat, a CAT") !! "cat"%string = Some 2)
    by (vm_compute; reflexivity).
  split; [exact H |].
  exact (count_words_bytes_entries (bytes_of "A cat, a CAT") "cat" 2 H).
Defined.

(** * Further properties of the planner *)

Lemma contiguous_head (f : list byte) a l c :
  contiguous f a l c → l ≠ [] → ∃ e, head l = Some (a, e).
Proof. destruct 1; [done | by eexists]. Qed.

Lemma contiguous_concat (f : list byte) a l c :
  0 ≤ a → contiguous f a l c → c = Z.of_nat (length f) →
  concat ((λ r, read f r.1 (r.2 - r.1)) <$> l) = drop (Z.to_nat a) f.
Proof.
  intros Ha Hc. induction Hc as [|a b c l Hg Hab Hc IH]; intros ->.
  - rewrite drop_ge by lia. reflexivity.
  - rewrite fmap_cons. simpl concat. rewrite IH by (done || lia). simpl.
    by rewrite <- read_drop_split by lia.
Qed.

Lemma read_length (f : list byte) a b :
  0 ≤ a ≤ b → b ≤ Z.of_nat (length f) →
  Z.of_nat (length (read f a (b - a))) = b - a.
Proof.
  intros Hab Hb. rewrite read_range by done.
  rewrite length_take, length_drop. lia.
Qed.

Lemma merge_fold_length l st :
  (length (foldl merge_step st l).1 ≤ length st.1 + length l)%nat.
Proof.
  revert st. induction l as [|[s e] l IH]; intros [merged last]; simpl; [lia |].
  etrans; [apply IH |].
  destruct merged as [|r merged]; simpl; [lia |].
  destruct (e - s =? 0); simpl.
  - rewrite length_alter. simpl. lia.
  - rewrite length_app. simpl. lia.
Qed.

Lemma word_run_all (l : list byte) : all_word_bytes l → word_run l = length l.
Proof.
  induction 1 as [|b l Hb _ IH]; [reflexivity |]. simpl. by rewrite Hb, IH.
Qed.

Lemma next_boundary_all (f : list byte) p :
  all_word_bytes f → 1 ≤ p ≤ Z.of_nat (length f) + 1 →
  next_boundary f p = Z.of_nat (length f) + 1.
Proof.
  intros Hf Hp. unfold next_boundary.
  rewrite word_run_all by by apply Forall_drop.
  rewrite length_drop. lia.
Qed.

Lemma merge_fold_clamped k merged size :
  merged ≠ [] →
  foldl merge_step (merged, size) (replicate k (size + 1, size))
  = (merged ++ replicate k (size, size), size).
Proof.
  revert merged. induction k as [|k IH]; intros merged Hne.
  - simpl. by rewrite app_nil_r.
  - change (foldl merge_step (merged, size) (replicate (S k) (size + 1, size)))
      with (foldl merge_step (merge_step (merged, size) (size + 1, size))
              (replicate k (size + 1, size))).
    rewrite merge_step_nonempty by done.
    destruct (Z.eqb_spec (size - (size + 1)) 0); [lia |].
    destruct (Z.ltb_spec size (Z.max (size + 1) size)); [| lia].
    rewrite IH by (by destruct merged).
    by rewrite <- app_assoc.
Qed.

(** X1.  Whenever the planner returns a plan, an offset lies in some range
    of the plan exactly when it is an offset of the file; the first range
    starts at 0, the last ends at the size of the file, and every range lies
    within the file. *)
Theorem returned_plan_covers_file (f : list byte) (n : Z) (plan : list (Z * Z)) :
  compute_segments f n = Ret plan →
  (∀ x, 0 ≤ x < Z.of_nat (length f) ↔ ∃ r, r ∈ plan ∧ r.1 ≤ x < r.2)
  ∧ (∃ e, head plan = Some (0, e))
  ∧ (∃ s, last plan = Some (s, Z.of_nat (length f)))
  ∧ (∀ r, r ∈ plan → 0 ≤ r.1 ≤ r.2 ∧ r.2 ≤ Z.of_nat (length f)).
Proof.
  intros (_ & Hne & Hc)%compute_segments_Ret_inv. split; [| split; [| split]].
  - intros x. exact (contiguous_cover f _ _ _ x Hc).
  - by eapply contiguous_head.
  - destruct (contiguous_last f _ _ _ Hc Hne) as (l' & s & ->).
    exists s. apply last_snoc.
  - intros r Hr. apply contiguous_bounds in Hc as [_ Hc].
    specialize (Hc r Hr). lia.
Qed.

Lemma returned_plan_covers_file_witness :
  compute_segments example_bytes 3 = Ret [(0, 12); (12, 24); (24, 38)]
  ∧ (∀ x, 0 ≤ x < Z.of_nat (length example_bytes)
          ↔ ∃ r, r ∈ [(0, 12); (12, 24); (24, 38)] ∧ r.1 ≤ x < r.2).
Proof.
  assert (H : compute_segments example_bytes 3 = Ret [(0, 12); (12, 24); (24, 38)])
    by (vm_compute; reflexivity).
  split; [exact H |].
  exact (proj1 (returned_plan_covers_file example_bytes 3 _ H)).
Defined.

(** X2.  The planner has three outcomes, decided by the count and the size
    alone: [ValueError] exactly when the count is not positive, [OSError]
    exactly when the file is not empty and has fewer bytes than the count,
    and a plan in every other case. *)
Theorem planner_outcomes (f : list byte) (n : Z) :
  (compute_segments f n = Raise ValueError ↔ n ≤ 0)
  ∧ (compute_segments f n = Raise OSError ↔ 0 < Z.of_nat (length f) < n)
  ∧ ((∃ plan, compute_segments f n = Ret plan)
     ↔ 0 < n ∧ (length f = 0%nat ∨ n ≤ Z.of_nat (length f))).
Proof.
  destruct (compute_segments_cases f n)
    as [[Hn H] | [(Hn & Hs & H) | [[Hn H] | (Hn & plan & H)]]]; rewrite H.
  all: split; [| split]; split;
    try (done || lia || (by intros [? ?]) || (by eexists)).
  all: intros _; split; [lia | (left; lia) || (right; lia)].
Qed.

(** X3.  A returned plan has at least one range and at most as many ranges
    as segments were asked for. *)
Theorem returned_plan_length (f : list byte) (n : Z) (plan : list (Z * Z)) :
  compute_segments f n = Ret plan → 1 ≤ Z.of_nat (length plan) ≤ n.
Proof.
  intros H. pose proof (compute_segments_Ret_inv f n plan H) as (Hn & Hne & _).
  split; [destruct plan; [done | simpl; lia] |].
  destruct (compute_segments_cases f n)
    as [[Hn' H'] | [(_ & Hs & H') | [[Hn' H'] | (Hn' & _ & _)]]];
    try (rewrite H' in H; simplify_eq; simpl; lia).
  unfold compute_segments in H. rewrite compute_segments_fuel_raw in H by lia.
  injection H as <-. unfold merge_segments.
  etrans; [apply Nat2Z.inj_le, merge_fold_length |].
  simpl. rewrite length_fmap, length_seqZ. lia.
Qed.

Lemma returned_plan_length_witness :
  compute_segments example_bytes 3 = Ret [(0, 12); (12, 24); (24, 38)]
  ∧ 1 ≤ Z.of_nat (length [(0, 12); (12, 24); (24, 38)]) ≤ 3.
Proof.
  assert (H : compute_segments example_bytes 3 = Ret [(0, 12); (12, 24); (24, 38)])
    by (vm_compute; reflexivity).
  split; [exact H |].
  exact (returned_plan_length example_bytes 3 _ H).
Defined.

(** X4.  With a single segment the plan is the whole file as one range,
    whatever the file holds. *)
Theorem single_segment_plan (f : list byte) :
  compute_segments f 1 = Ret [(0, Z.of_nat (length f))].
Proof.
  unfold compute_segments. destruct (decide (length f = 0%nat)) as [Hz | Hz].
  - rewrite compute_segments_fuel_empty by lia. by rewrite Hz.
  - rewrite compute_segments_fuel_raw by lia. reflexivity.
Qed.

(** X5.  When the planner returns a plan, every worker's read succeeds, the
    buffer of a range holds as many bytes as the range is long, and the
    buffers concatenated in plan order are the file. *)
Theorem workers_read_the_file_once (f : list byte) (n : Z) (plan : list (Z * Z)) :
  compute_segments f n = Ret plan →
  ∃ bufs, for_each (worker_buf f) plan = Ret bufs
          ∧ Forall2 (λ r buf, Z.of_nat (length buf) = r.2 - r.1) plan bufs
          ∧ concat bufs = f.
Proof.
  intros (_ & _ & Hc)%compute_segments_Ret_inv.
  pose proof (contiguous_bounds f _ _ _ Hc) as [_ Hb].
  eexists. split; [| split].
  - apply for_each_worker_buf. intros r Hr. specialize (Hb r Hr). lia.
  - apply Forall2_fmap_r, Forall_Forall2_diag, Forall_forall.
    intros [s e] Hr. specialize (Hb _ Hr). simpl in *.
    apply read_length; lia.
  - by rewrite (contiguous_concat f 0 plan _ ltac:(lia) Hc eq_refl).
Qed.

Lemma workers_read_the_file_once_witness :
  compute_segments (bytes_of "aaaa") 2 = Ret [(0, 4); (4, 4)]
  ∧ ∃ bufs, for_each (worker_buf (bytes_of "aaaa")) [(0, 4); (4, 4)] = Ret bufs
            ∧ Forall2 (λ r buf, Z.of_nat (length buf) = r.2 - r.1) [(0, 4); (4, 4)] bufs
            ∧ concat bufs = bytes_of "aaaa".
Proof.
  assert (H : compute_segments (bytes_of "aaaa") 2 = Ret [(0, 4); (4, 4)])
    by (vm_compute; reflexivity).
  split; [exact H |].
  exact (workers_read_the_file_once (bytes_of "aaaa") 2 _ H).
Defined.

(** X6.  On a file that is a single run of word bytes, with no more segments
    than bytes, the first range is the whole file and every other segment is
    kept as an empty range at the end of the file: the plan still has as
    many ranges as segments were asked for. *)
Theorem one_word_file_plan (f : list byte) (n : Z) :
  all_word_bytes f → 0 < n ≤ Z.of_nat (length f) →
  compute_segments f n
  = Ret ((0, Z.of_nat (length f))
         :: replicate (Z.to_nat (n - 1)) (Z.of_nat (length f), Z.of_nat (length f))).
Proof.
  intros Hf Hn. unfold compute_segments.
  rewrite compute_segments_fuel_raw by lia. f_equal.
  assert (Ha : 1 ≤ Z.of_nat (length f) `div` n).
  { pose proof (Z.div_le_lower_bound (Z.of_nat (length f)) n 1). lia. }
  assert (Hm : n * (Z.of_nat (length f) `div` n) ≤ Z.of_nat (length f))
    by (apply Z.mul_div_le; lia).
  set (approx := Z.of_nat (length f) `div` n) in *.
  rewrite seqZ_cons by lia. rewrite fmap_cons.
  assert (Hfirst : (raw_start f approx 0, raw_end f n approx 0)
                   = (0, Z.of_nat (length f))).
  { f_equal. unfold raw_end. destruct (0 =? n - 1); [done |].
    rewrite next_boundary_all by (done || nia). lia. }
  rewrite Hfirst.
  assert (Hrest : (λ i, (raw_start f approx i, raw_end f n approx i))
                    <$> seqZ (Z.succ 0) (Z.pred n)
                  = replicate (Z.to_nat (n - 1))
                      (Z.of_nat (length f) + 1, Z.of_nat (length f))).
  { symmetry. apply replicate_as_Forall. split.
    - rewrite length_fmap, length_seqZ. lia.
    - apply Forall_fmap, Forall_seqZ. intros i Hi. simpl.
      unfold raw_start, raw_end.
      destruct (Z.ltb_spec 0 (i * approx)); [| nia].
      rewrite next_boundary_all by (done || nia).
      destruct (i =? n - 1); [done |].
      rewrite next_boundary_all by (done || nia). f_equal. lia. }
  rewrite Hrest. unfold merge_segments. simpl foldl.
  change (merge_step ([], -1) (0, Z.of_nat (length f)))
    with ([(0, Z.of_nat (length f))], Z.of_nat (length f)).
  by rewrite merge_fold_clamped.
Qed.

Lemma one_word_file_plan_witness :
  all_word_bytes (bytes_of "it's") ∧ 0 < 3 ≤ Z.of_nat (length (bytes_of "it's"))
  ∧ compute_segments (bytes_of "it's") 3 = Ret [(0, 4); (4, 4); (4, 4)].
Proof.
  assert (Ha : all_word_bytes (bytes_of "it's"))
    by (unfold all_word_bytes; repeat constructor).
  assert (Hn : 0 < 3 ≤ Z.of_nat (length (bytes_of "it's"))) by (simpl; lia).
  split; [exact Ha |]. split; [exact Hn |].
  exact (one_word_file_plan (bytes_of "it's") 3 Ha Hn).
Defined.

(** * Further properties of counting and merging *)



Lemma occurrences_elem w words : w ∈ words → occurrences w words ≠ 0.
Proof.
  unfold occurrences. intros Hw.
  assert (w ∈ filter (w =.) words) as Hf by by apply list_elem_of_filter.
  destruct (filter (w =.) words); [inversion Hf | simpl; lia].
Qed.

Lemma total_counts_insert_None (m : gmap string Z) k v :
  m !! k = None → total_counts (<[k := v]> m) = v + total_counts m.
Proof.
  intros Hk. unfold total_counts.
  rewrite map_fold_insert_L; [done | intros; lia | done].
Qed.

Lemma total_counts_insert_Some (m : gmap string Z) k v x :
  m !! k = Some x → total_counts (<[k := v]> m) = v - x + total_counts m.
Proof.
  intros Hk. unfold total_counts.
  rewrite (map_fold_delete_L _ _ k v (<[k := v]> m));
    [| intros; lia | apply lookup_insert_eq].
  rewrite (map_fold_delete_L _ _ k x m); [| intros; lia | done].
  rewrite delete_insert_eq. lia.
Qed.

Lemma total_counts_Counter_fold words (self : gmap string Z) :
  total_counts
    (foldl (λ self elem, <[elem := default 0 (self !! elem) + 1]> self) self words)
  = total_counts self + Z.of_nat (length words).
Proof.
  revert self. induction words as [|w words IH]; intros self; simpl; [lia |].
  rewrite IH. destruct (self !! w) as [x|] eqn:Hw; simpl.
  - rewrite (total_counts_insert_Some _ _ _ x) by done. lia.
  - rewrite total_counts_insert_None by done. lia.
Qed.

Lemma total_count_app rs1 rs2 w :
  total_count (rs1 ++ rs2) w = opt_sum (total_count rs1 w) (total_count rs2 w).
Proof.
  induction rs1 as [|c rs1 IH]; simpl; [done |].
  by rewrite IH, opt_sum_assoc.
Qed.






(** X7.  The count that [count_words_bytes] gives a word is the number of
    times the word occurs among the words of the buffer, a word that does
    not occur has no entry, and the counts add up to the number of words
    found. *)
Theorem count_words_bytes_counts (buf : list byte) :
  (∀ w, count_words_bytes buf !! w
        = if decide (w ∈ tokenize buf)
          then Some (occurrences w (tokenize buf)) else None)
  ∧ total_counts (count_words_bytes buf) = Z.of_nat (length (tokenize buf)).
Proof.
  split.
  - intros w. unfold count_words_bytes. rewrite Counter_of_lookup.
    destruct (decide (w ∈ tokenize buf)) as [Hw | Hw].
    + apply occurrences_elem in Hw. by case_decide.
    + case_decide; [done |]. exfalso. by apply Hw, occurrences_pos.
  - unfold count_words_bytes, Counter_of.
    rewrite total_counts_Counter_fold. unfold total_counts.
    rewrite map_fold_empty. lia.
Qed.





(** X10.  Merging can be done in stages: consolidating two groups of maps
    separately and then consolidating the two results gives the same table
    as consolidating all maps at once; consolidating a single map gives the
    map back, and consolidating nothing gives the empty table. *)
Theorem consolidate_in_stages (rs1 rs2 : list (gmap string Z)) (c : gmap string Z) :
  consolidate (rs1 ++ rs2) = consolidate [consolidate rs1; consolidate rs2]
  ∧ consolidate [c] = c
  ∧ consolidate [] = ∅.
Proof.
  split; [| split].
  - apply map_eq. intros w. rewrite !consolidate_lookup, total_count_app.
    simpl. rewrite !consolidate_lookup.
    by destruct (total_count rs1 w), (total_count rs2 w).
  - apply map_eq. intros w. rewrite consolidate_lookup. simpl.
    by destruct (c !! w).
  - reflexivity.
Qed.

(** * Further properties of the report *)

Lemma ltb_lt (a b : string) : String.ltb a b = true ↔ String_as_OT.lt a b.
Proof.
  rewrite <- String_as_OT.cmp_lt. unfold String.ltb, String_as_OT.cmp.
  by destruct (String.compare a b).
Qed.

Lemma ltb_false_cases (a b : string) :
  String.ltb b a = false → a = b ∨ String.ltb a b = true.
Proof.
  intros H. destruct (decide (a = b)) as [-> | Hne]; [by left | right].
  by apply ltb_connex.
Qed.

Lemma ltb_false_trans (a b c : string) :
  String.ltb b a = false → String.ltb c b = false → String.ltb c a = false.
Proof.
  intros Hab Hbc. destruct (String.ltb c a) eqn:Hca; [| done].
  apply ltb_false_cases in Hab as [-> | Hab]; [congruence |].
  apply ltb_lt in Hca, Hab.
  pose proof (String_as_OT.lt_trans _ _ _ Hca Hab) as Hcb.
  apply ltb_lt in Hcb. congruence.
Qed.

Global Instance item_le_trans : Transitive item_le.
Proof.
  intros [w1 c1] [w2 c2] [w3 c3]. unfold item_le, key_lt, sort_key. simpl.
  intros H12 H23.
  destruct (Z.ltb_spec (- c2) (- c1)); simpl in H12; [done |].
  destruct (Z.ltb_spec (- c3) (- c2)); simpl in H23; [done |].
  destruct (Z.ltb_spec (- c3) (- c1)); simpl; [lia |].
  destruct (Z.eqb_spec (- c3) (- c1)); simpl; [| done].
  destruct (Z.eqb_spec (- c2) (- c1)); simpl in H12; [| lia].
  destruct (Z.eqb_spec (- c3) (- c2)); simpl in H23; [| lia].
  by eapply ltb_false_trans.
Qed.

Global Instance item_le_antisym : AntiSymm (=) item_le.
Proof.
  intros [w1 c1] [w2 c2]. unfold item_le, key_lt, sort_key. simpl.
  intros H12 H21.
  destruct (Z.ltb_spec (- c2) (- c1)); simpl in H12; [done |].
  destruct (Z.ltb_spec (- c1) (- c2)); simpl in H21; [done |].
  assert (c1 = c2) as -> by lia.
  rewrite Z.eqb_refl in H12, H21. simpl in *.
  apply ltb_false_cases in H12 as [-> | H12]; [done | congruence].
Qed.

(** X11.  The printed report is a rearrangement of the items of the table
    and is the same in whatever order the table yields its items, so it does
    not depend on the order in which the workers' words were merged. *)
Theorem report_independent_of_item_order (items items' : list (string * Z)) :
  items ≡ₚ items' →
  sorted_items items = sorted_items items' ∧ sorted_items items ≡ₚ items.
Proof.
  intros Hperm. unfold sorted_items. split; [| apply merge_sort_Permutation].
  apply (Sorted_unique item_le); [apply Sorted_merge_sort, _ .. |].
  by rewrite !merge_sort_Permutation.
Qed.

Lemma report_independent_of_item_order_witness :
  [("on"%string, 1); ("the"%string, 3)] ≡ₚ [("the"%string, 3); ("on"%string, 1)]
  ∧ sorted_items [("on"%string, 1); ("the"%string, 3)]
    = sorted_items [("the"%string, 3); ("on"%string, 1)].
Proof.
  assert (H : [("on"%string, 1); ("the"%string, 3)]
              ≡ₚ [("the"%string, 3); ("on"%string, 1)]) by apply Permutation_swap.
  split; [exact H |].
  exact (proj1 (report_independent_of_item_order _ _ H)).
Defined.

(** * The file a worker writes *)

Lemma dict_incr_to_map items elem :
  (list_to_map (dict_incr items elem) : gmap string Z)
  = <[elem := default 0 ((list_to_map items : gmap string Z) !! elem) + 1]>
      (list_to_map items).
Proof.
  induction items as [|[k v] items IH]; simpl; [done |].
  destruct (decide (k = elem)) as [-> | Hne]; simpl.
  - by rewrite lookup_insert_eq, insert_insert_eq.
  - rewrite IH, lookup_insert_ne by done. by apply insert_insert_ne.
Qed.

Lemma dict_incr_keys items elem x :
  x ∈ (dict_incr items elem).*1 ↔ x ∈ items.*1 ∨ x = elem.
Proof.
  induction items as [|[k v] items IH]; simpl.
  - rewrite list_elem_of_singleton. split; [by right | by intros [[]%elem_of_nil |]].
  - destruct (decide (k = elem)) as [-> | Hne]; simpl.
    + rewrite !elem_of_cons. tauto.
    + rewrite !elem_of_cons, IH. tauto.
Qed.

Lemma dict_incr_NoDup items elem :
  NoDup items.*1 → NoDup (dict_incr items elem).*1.
Proof.
  induction items as [|[k v] items IH]; simpl; intros Hnd.
  - apply NoDup_singleton.
  - apply NoDup_cons in Hnd as [Hk Hnd].
    destruct (decide (k = elem)) as [-> | Hne]; simpl.
    + by apply NoDup_cons.
    + apply NoDup_cons. split; [| by apply IH].
      rewrite dict_incr_keys. by intros [? | ?].
Qed.

Lemma Counter_items_fold words items :
  (list_to_map (foldl dict_incr items words) : gmap string Z)
  = foldl (λ self elem, <[elem := default 0 (self !! elem) + 1]> self)
          (list_to_map items) words
  ∧ (NoDup items.*1 → NoDup (foldl dict_incr items words).*1).
Proof.
  revert items. induction words as [|w words IH]; intros items; simpl; [done |].
  destruct (IH (dict_incr items w)) as [IH1 IH2]. split.
  - by rewrite IH1, dict_incr_to_map.
  - intros Hnd. by apply IH2, dict_incr_NoDup.
Qed.

Lemma insert_desc_perm x l : insert_desc x l ≡ₚ x :: l.
Proof.
  induction l as [|y l IH]; simpl; [done |].
  destruct (x.2 <? y.2); [| done]. rewrite IH. apply Permutation_swap.
Qed.

Lemma most_common_perm items : most_common items ≡ₚ items.
Proof.
  induction items as [|x items IH]; simpl; [done |].
  by rewrite insert_desc_perm, IH.
Qed.

Lemma insert_desc_sorted x l : Sorted count_ge l → Sorted count_ge (insert_desc x l).
Proof.
  induction 1 as [|y l Hs IH Hhd]; simpl.
  - repeat constructor.
  - destruct (Z.ltb_spec x.2 y.2).
    + constructor; [done |].
      destruct l as [|z l]; simpl in *.
      * constructor. unfold count_ge. lia.
      * apply HdRel_inv in Hhd.
        destruct (x.2 <? z.2); constructor; unfold count_ge in *; lia.
    + constructor; [by constructor |]. constructor. done.
Qed.

Lemma most_common_sorted items : Sorted count_ge (most_common items).
Proof.
  induction items as [|x items IH]; simpl; [constructor |].
  by apply insert_desc_sorted.
Qed.

Lemma insert_desc_filter c x l :
  filter (λ y : string * Z, y.2 = c) (insert_desc x l)
  = filter (λ y : string * Z, y.2 = c) (x :: l).
Proof.
  induction l as [|y l IH]; simpl; [done |].
  destruct (Z.ltb_spec x.2 y.2); [| done].
  rewrite (filter_cons _ y), IH, !filter_cons.
  repeat case_decide; try done; lia.
Qed.

Lemma most_common_filter c items :
  filter (λ y : string * Z, y.2 = c) (most_common items)
  = filter (λ y : string * Z, y.2 = c) items.
Proof.
  induction items as [|x items IH]; simpl; [done |].
  by rewrite insert_desc_filter, !filter_cons, IH.
Qed.

(** X12.  The file a worker writes has one line for every word of its
    buffer and no other line, each with the count [count_words_bytes] gives
    the word; the counts never increase from one line to the next; and words
    of equal count stand in the order in which the Counter holds them, the
    order in which the buffer first has them. *)
Theorem intermediate_lines_spec (buf : list byte) :
  list_to_map (intermediate_lines buf) = count_words_bytes buf
  ∧ NoDup (intermediate_lines buf).*1
  ∧ Sorted count_ge (intermediate_lines buf)
  ∧ (∀ c, filter (λ y : string * Z, y.2 = c) (intermediate_lines buf)
          = filter (λ y : string * Z, y.2 = c) (Counter_items (tokenize buf))).
Proof.
  unfold intermediate_lines, Counter_items.
  destruct (Counter_items_fold (tokenize buf) []) as [Hmap Hnd].
  specialize (Hnd (NoDup_nil_2 : NoDup ([] : list (string * Z)).*1)).
  assert (Hnd' : NoDup (most_common (foldl dict_incr [] (tokenize buf))).*1)
    by by rewrite most_common_perm.
  split; [| split; [done | split]].
  - rewrite (list_to_map_proper _ (foldl dict_incr [] (tokenize buf)));
      [exact Hmap | done | apply most_common_perm].
  - apply most_common_sorted.
  - intros c. apply most_common_filter.
Qed.

Example intermediate_lines_example :
  intermediate_lines (bytes_of "on the mat, on the cat, on") 
  = [("on", 3); ("the", 2); ("mat", 1); ("cat", 1)]%string.
Proof. vm_compute. reflexivity. Qed.

(** * The run as a whole, and the two notions of a word character *)


Ltac cases_on_comparisons :=
  repeat match goal with
    | |- context [?x <=? ?y] => destruct (Z.leb_spec x y)
    | |- context [?x =? ?y] => destruct (Z.eqb_spec x y)
    end;
  simpl; try lia; try done.

(** X14.  On ASCII the planner and the counter agree on what a word
    character is: lower-casing an ASCII code point gives one code point, and
    that one is in the class of [WORD_RE] exactly when [is_word_char] holds
    of the byte.  No byte from 128 on is a word byte. *)
Theorem word_byte_matches_word_pattern (b : Z) :
  (b < 128 → ∃ c, lower_char b = [c] ∧ word_re_class c = is_word_char b)
  ∧ (128 ≤ b → is_word_char b = false).
Proof.
  split; intros Hb.
  - destruct (decide (65 ≤ b ≤ 90)) as [Hcap | Hcap].
    + exists (b + 32). split.
      * unfold lower_char. cases_on_comparisons.
      * unfold word_re_class, is_word_char. lia.
    + exists b. unfold lower_char. split; [cases_on_comparisons | reflexivity].
  - unfold is_word_char. lia.
Qed.

Lemma word_byte_matches_word_pattern_witness :
  65 < 128 ∧ ∃ c, lower_char 65 = [c] ∧ word_re_class c = is_word_char 65.
Proof.
  split; [lia |]. apply (proj1 (word_byte_matches_word_pattern 65)). lia.
Defined.

(** * What the plan depends on, and where its empty ranges are *)

Lemma word_run_pattern (l1 l2 : list byte) :
  word_pattern l1 = word_pattern l2 → word_run l1 = word_run l2.
Proof.
  revert l2. induction l1 as [|b1 l1 IH]; intros [|b2 l2]; try done.
  unfold word_pattern. rewrite !fmap_cons. intros [= Hb Hl]. simpl.
  rewrite Hb. by rewrite (IH l2 Hl).
Qed.

Lemma next_boundary_pattern (f g : list byte) p :
  word_pattern f = word_pattern g → next_boundary f p = next_boundary g p.
Proof.
  intros H. unfold next_boundary. f_equal. f_equal.
  apply word_run_pattern. unfold word_pattern in *.
  by rewrite !fmap_drop, H.
Qed.

Lemma merge_fold_ranges (f : list byte) l merged last :
  merged ≠ [] → raw_ok f last l →
  Forall (λ r, r.1 < r.2 ∨ r = (Z.of_nat (length f), Z.of_nat (length f))) merged →
  Forall (λ r, r.1 < r.2 ∨ r = (Z.of_nat (length f), Z.of_nat (length f)))
         (foldl merge_step (merged, last) l).1.
Proof.
  revert merged last. induction l as [|[s e] l IH]; intros merged last Hne Hok Hm.
  - exact Hm.
  - inversion Hok as [|? ? ? ? Hmin Hg He Hse Hok']; subst.
    change (foldl merge_step (merged, s `min` Z.of_nat (length f)) ((s, e) :: l))
      with (foldl merge_step
              (merge_step (merged, s `min` Z.of_nat (length f)) (s, e)) l).
    rewrite merge_step_nonempty by done.
    destruct (Z.eqb_spec (e - s) 0) as [Heq | Hneq].
    + assert (s = e) by lia. subst s.
      apply IH; [| by replace (e `min` Z.of_nat (length f)) with e by lia |].
      * intros Hnil. apply (f_equal length) in Hnil.
        rewrite length_alter in Hnil. by destruct merged.
      * apply Forall_alter; [done |].
        intros [a b] _ [Hab | [= -> ->]]; simpl in *; [left; lia |].
        right. f_equal. lia.
    + apply IH; [by destruct merged | done |].
      apply Forall_app. split; [done |]. apply Forall_singleton. simpl.
      destruct (Z.ltb_spec e (Z.max s (s `min` Z.of_nat (length f)))).
      * right. f_equal; lia.
      * left. lia.
Qed.

(** X15.  The plan depends on the file only through which of its bytes are
    word bytes: two files with the same pattern of word bytes get the same
    outcome of the planner for every segment count. *)
Theorem plan_depends_on_word_pattern (f g : list byte) (n : Z) :
  word_pattern f = word_pattern g → compute_segments f n = compute_segments g n.
Proof.
  intros H.
  assert (Hlen : length f = length g).
  { apply (f_equal length) in H. unfold word_pattern in H.
    by rewrite !length_fmap in H. }
  unfold compute_segments. rewrite <- Hlen.
  destruct (Z.le_gt_cases n 0).
  { by rewrite !compute_segments_fuel_nonpos. }
  destruct (decide (length f = 0%nat)).
  { by rewrite !compute_segments_fuel_empty by lia. }
  destruct (Z.lt_ge_cases (Z.of_nat (length f)) n).
  { by rewrite !compute_segments_fuel_small by lia. }
  rewrite !compute_segments_fuel_raw by lia. rewrite <- Hlen.
  do 2 f_equal. apply list_fmap_ext. intros _ i _.
  unfold raw_start, raw_end. rewrite <- Hlen.
  by rewrite !(next_boundary_pattern f g).
Qed.

Lemma plan_depends_on_word_pattern_witness :
  word_pattern (bytes_of "Ab, cd!") = word_pattern (bytes_of "xy? z9.")
  ∧ compute_segments (bytes_of "Ab, cd!") 2 = compute_segments (bytes_of "xy? z9.") 2.
Proof.
  assert (H : word_pattern (bytes_of "Ab, cd!") = word_pattern (bytes_of "xy? z9."))
    by reflexivity.
  split; [exact H |].
  exact (plan_depends_on_word_pattern _ _ 2 H).
Defined.

(** X16.  A returned plan has no empty range inside the file: every range
    holds at least one byte or is the empty range at the end of the file. *)
Theorem empty_ranges_only_at_end (f : list byte) (n : Z) (plan : list (Z * Z)) :
  compute_segments f n = Ret plan →
  ∀ r, r ∈ plan → r.1 < r.2 ∨ r = (Z.of_nat (length f), Z.of_nat (length f)).
Proof.
  intros H. apply Forall_forall.
  destruct (compute_segments_cases f n)
    as [[Hn H'] | [(_ & Hs & H') | [[Hn H'] | (Hn & _ & _)]]];
    try (rewrite H' in H; simplify_eq).
  { rewrite Hs. by repeat constructor. }
  unfold compute_segments in H. rewrite compute_segments_fuel_raw in H by lia.
  injection H as <-.
  assert (Ha : 1 ≤ Z.of_nat (length f) `div` n).
  { pose proof (Z.div_le_lower_bound (Z.of_nat (length f)) n 1). lia. }
  assert (Hm : n * (Z.of_nat (length f) `div` n) ≤ Z.of_nat (length f))
    by (apply Z.mul_div_le; lia).
  rewrite seqZ_cons by lia. rewrite fmap_cons.
  pose proof (raw_segments_ok f n (Z.of_nat (length f) `div` n) (Z.to_nat (n - 1)) 1)
    as Hok.
  replace (Z.of_nat (Z.to_nat (n - 1))) with (Z.pred n) in Hok by lia.
  change (Z.succ 0) with 1. change (1 - 1) with 0 in Hok.
  unfold merge_segments.
  assert (raw_start f (Z.of_nat (length f) `div` n) 0 = 0) as -> by reflexivity.
  apply (merge_fold_ranges f _ [(0, raw_end f n (Z.of_nat (length f) `div` n) 0)]);
    [done | apply Hok; lia |].
  apply Forall_singleton. left. simpl. unfold raw_end.
  pose proof (next_boundary_ge f ((0 + 1) * (Z.of_nat (length f) `div` n))).
  destruct (0 =? n - 1); lia.
Qed.

Lemma empty_ranges_only_at_end_witness :
  compute_segments (bytes_of "aaaa") 2 = Ret [(0, 4); (4, 4)]
  ∧ ∀ r, r ∈ [(0, 4); (4, 4)]
         → r.1 < r.2 ∨ r = (Z.of_nat (length (bytes_of "aaaa")),
                            Z.of_nat (length (bytes_of "aaaa"))).
Proof.
  assert (H : compute_segments (bytes_of "aaaa") 2 = Ret [(0, 4); (4, 4)])
    by (vm_compute; reflexivity).
  split; [exact H |].
  exact (empty_ranges_only_at_end (bytes_of "aaaa") 2 _ H).
Defined.
